(** * Log API: consolidation of cache and archive results, and the write path

    A shallow embedding of [src/application/api.py] (class [API]):
    - [_merge_logs], the consolidation of two lists of log entries
      (set-based removal of duplicates on the triple
      (timestamp, tag, message), followed by [list.sort] on the timestamp);
    - [__prune_logs], [__save_pruned_logs], [add_logs] and [get_logs], in a
      state-and-exception monad that records every call made to the two
      collaborators (the temporal cache and the SQLite service), every
      [print], and the tasks handed to [BackgroundTasks]. *)

From stdpp Require Import base decidable countable list sorting gmap strings pretty.
From Stdlib Require Import ZArith.

Local Open Scope Z_scope.

(** ** Data model *)

(** Modelled from the spec: the class [LogEntry], declared in
    src/model/log_entry.py, which is outside the file embedded here.  An
    immutable value with a timestamp (a point in time, the sole ordering
    key, here an integer count of time units), a classification tag and a
    message. *)
Record LogEntry : Type := mkLogEntry {
  le_timestamp : Z;
  le_tag : string;
  le_message : string
}.

#[global] Instance LogEntry_eq_dec : EqDecision LogEntry.
Proof. solve_decision. Defined.

(** The tuple [(log.timestamp, log.tag, log.message)] that [_merge_logs]
    stores in its Python [set]. *)
Abbreviation LogKey := (Z * string * string)%type.

(** [_merge_logs] reads three attributes of each element and nothing else;
    any object offering them can be merged.  Elements with equal attributes
    may still be different objects, which is what the interface keeps
    visible. *)
Class LogLike (A : Type) : Type := {
  timestamp : A → Z;
  tag : A → string;
  message : A → string
}.

#[global] Instance LogEntry_LogLike : LogLike LogEntry :=
  {| timestamp := le_timestamp; tag := le_tag; message := le_message |}.

(** An element together with a mark of its own, standing for a Python object
    whose identity is not determined by its three attributes. *)
#[global] Instance marked_LogLike {M : Type} : LogLike (M * LogEntry) :=
  {| timestamp := λ x, le_timestamp x.2;
     tag := λ x, le_tag x.2;
     message := λ x, le_message x.2 |}.

Definition log_key `{LogLike A} (log : A) : LogKey :=
  (timestamp log, tag log, message log).

(** ** [list.sort(key=lambda log: log.timestamp)]

    Python's [list.sort] is stable and compares the keys with [<].  A stable
    sort has exactly one possible result (lemma [stable_sort_unique] below),
    so the insertion sort written here returns the list that the built-in
    sort returns. *)
Section Sort.
Context `{LogLike A}.

Fixpoint insert_by_timestamp (x : A) (l : list A) : list A :=
  match l with
  | [] => [x]
  | y :: l' =>
      if bool_decide (timestamp y < timestamp x)
      then y :: insert_by_timestamp x l'
      else x :: y :: l'
  end.

Fixpoint sort_by_timestamp (l : list A) : list A :=
  match l with
  | [] => []
  | x :: l' => insert_by_timestamp x (sort_by_timestamp l')
  end.
End Sort.

(** ** [API._merge_logs] *)
Section Merge.
Context `{LogLike A}.

(** The state of the two loops: the set [unique_logs] and the list
    [combined_logs]. *)
Definition MergeState : Type := gset LogKey * list A.

(** One iteration of either loop:
<<
    log_key = (log.timestamp, log.tag, log.message)
    if log_key not in unique_logs:
        unique_logs.add(log_key)
        combined_logs.append(log)
>> *)
Definition merge_step (st : MergeState) (log : A) : MergeState :=
  let log_key := log_key log in
  if bool_decide (log_key ∉ st.1)
  then (st.1 ∪ {[ log_key ]}, st.2 ++ [log])
  else st.

Definition _merge_logs (cache_logs db_logs : list A) : list A :=
  let st0 : MergeState := (∅, []) in
  let st1 := foldl merge_step st0 cache_logs in
  let st2 := foldl merge_step st1 db_logs in
  sort_by_timestamp st2.2.
End Merge.

(** ** The same function over a store of list objects

    Python lists are mutable objects reached through references.  To speak
    about what [_merge_logs] does to the lists it is given, the function is
    written a second time over a store that maps references to list
    contents: [combined_logs = []] allocates a new list object,
    [combined_logs.append] and [combined_logs.sort] update that object in
    place, and each [for] loop walks its list by position, reading the store
    at every step as a list iterator does. *)
Abbreviation loc := positive.

Section MergeStore.
Context `{LogLike A}.

(** One [for log in src: ...] loop with [combined_logs] at [dst]; [i] is
    the position of the iterator.  [None]: a reference that is not a list
    of the store, or no fuel left. *)
Fixpoint merge_loop (fuel : nat) (src dst : loc) (i : nat)
    (unique_logs : gset LogKey) (h : gmap loc (list A))
    : option (gset LogKey * gmap loc (list A)) :=
  match fuel with
  | O => None
  | S fuel' =>
      match h !! src with
      | None => None
      | Some l =>
          match l !! i with
          | None => Some (unique_logs, h)
          | Some log =>
              let log_key := log_key log in
              if bool_decide (log_key ∉ unique_logs)
              then match h !! dst with
                   | None => None
                   | Some combined =>
                       merge_loop fuel' src dst (S i)
                         (unique_logs ∪ {[ log_key ]})
                         (<[dst := combined ++ [log]]> h)
                   end
              else merge_loop fuel' src dst (S i) unique_logs h
          end
      end
  end.

(** Fuel for a loop over the list at [src]: one step per element and one
    for the step that finds the iterator exhausted. *)
Definition loop_fuel (h : gmap loc (list A)) (src : loc) : nat :=
  S (length (default [] (h !! src))).

Definition _merge_logs_store (h : gmap loc (list A)) (cache_logs db_logs : loc)
    : option (loc * gmap loc (list A)) :=
  let combined_logs := fresh (dom h) in
  let h0 := <[combined_logs := []]> h in
  '(unique_logs, h1) ← merge_loop (loop_fuel h0 cache_logs) cache_logs combined_logs 0 ∅ h0;
  '(_, h2) ← merge_loop (loop_fuel h1 db_logs) db_logs combined_logs 0 unique_logs h1;
  combined ← h2 !! combined_logs;
  Some (combined_logs, <[combined_logs := sort_by_timestamp combined]> h2).
End MergeStore.

(** ** Effects: collaborators, exceptions, trace *)

(** The exceptions of the model; each is an instance of Python's
    [Exception]. *)
Inductive Exn : Type :=
  | AssertionError (msg : string)
  | CollaboratorError (msg : string).

Inductive Result (X : Type) : Type :=
  | Ok (x : X)
  | Raise (e : Exn).
Arguments Ok {X} x.
Arguments Raise {X} e.

(** The interface of [TemporalCache] that [API] uses, over a cache state
    [C].  [add_log] and [prune_cache] may raise, and may have changed the
    cache by then: [add_logs] calls [add_log] outside any handler, and
    [__prune_logs] wraps [prune_cache] in [try].  The two read methods are
    taken as returning normally. *)
Record TemporalCache (C : Type) : Type := {
  tc_add_log : LogEntry → C → Result unit * C;
  tc_prune_cache : C → Result (list LogEntry) * C;
  tc_get_logs : Z → Z → C → list LogEntry;
  tc_get_all_logs : C → list LogEntry
}.
Arguments tc_add_log {C} _ _ _.
Arguments tc_prune_cache {C} _ _.
Arguments tc_get_logs {C} _ _ _ _.
Arguments tc_get_all_logs {C} _ _.

(** A cache whose [add_log] accepts every entry: it inserts and returns,
    whatever the entry and whatever the cache holds.  The properties of the
    write path that speak of an acknowledged submission are stated over
    such caches. *)
Record AcceptingCache (C : Type) : Type := {
  cache_add_log : LogEntry → C → C;
  cache_prune_cache : C → Result (list LogEntry) * C;
  cache_get_logs : Z → Z → C → list LogEntry;
  cache_get_all_logs : C → list LogEntry
}.
Arguments cache_add_log {C} _ _ _.
Arguments cache_prune_cache {C} _ _.
Arguments cache_get_logs {C} _ _ _ _.
Arguments cache_get_all_logs {C} _ _.

(** An accepting cache seen through the interface. *)
Definition accepting_cache {C} (cache : AcceptingCache C) : TemporalCache C := {|
  tc_add_log := λ log_entry c, (Ok tt, cache_add_log cache log_entry c);
  tc_prune_cache := cache_prune_cache cache;
  tc_get_logs := cache_get_logs cache;
  tc_get_all_logs := cache_get_all_logs cache
|}.
Coercion accepting_cache : AcceptingCache >-> TemporalCache.

(** The interface of [SQliteConn] that [API] uses, over a database state
    [D]. *)
Record SQliteConn (D : Type) : Type := {
  db_save_logs : list LogEntry → D → D;
  db_get_logs : Z → Z → D → list LogEntry
}.
Arguments db_save_logs {D} _ _ _.
Arguments db_get_logs {D} _ _ _ _.

(** What [print] is given. *)
Inductive Printed : Type :=
  | PLogEntry (log_entry : LogEntry)
  | PPrunedLogs (pruned_logs : list LogEntry)
  | PPruneError (e : Exn).

(** [jsonable_encoder(log.model_dump())]: the three fields by name. *)
Inductive JsonValue : Type :=
  | JTime (t : Z)
  | JString (s : string).

Definition jsonable_log (log : LogEntry) : list (string * JsonValue) :=
  [("timestamp"%string, JTime (le_timestamp log));
   ("tag"%string, JString (le_tag log));
   ("message"%string, JString (le_message log))].

Inductive Content : Type :=
  | ContentAdded (message : string) (count : nat)
  | ContentLogs (logs : list (list (string * JsonValue))).

Record JSONResponse : Type := mkJSONResponse {
  content : Content;
  status_code : Z
}.

(** Everything observable outside [API], in the order it happens. *)
Inductive Event : Type :=
  | EvPrint (p : Printed)
  | EvCacheAddLog (log_entry : LogEntry)
  | EvCachePrune
  | EvCacheGetLogs (start_time end_time : Z)
  | EvCacheGetAllLogs
  | EvDbSaveLogs (logs : list LogEntry)
  | EvDbGetLogs (start_time end_time : Z)
  | EvResponse (r : JSONResponse)
  | EvUnhandled (e : Exn).

(** A Python value that is either [None] or a list of entries: what
    [__prune_logs] returns. *)
Definition PrunedLogs : Type := option (list LogEntry).

(** A call handed to [BackgroundTasks.add_task]; [API] only ever hands over
    [self.__save_pruned_logs] with its argument already evaluated. *)
Inductive Task : Type :=
  | TaskSavePrunedLogs (pruned_logs : PrunedLogs).

Record World (C D : Type) : Type := mkWorld {
  w_cache : C;
  w_db : D;
  w_tasks : list Task;
  w_trace : list Event
}.
Arguments mkWorld {C D} _ _ _ _.
Arguments w_cache {C D} _.
Arguments w_db {C D} _.
Arguments w_tasks {C D} _.
Arguments w_trace {C D} _.

(** The body of a request submitted to [POST /logs]: [LogEntry | LogList]. *)
Inductive Submission : Type :=
  | SubLogEntry (log_entry : LogEntry)
  | SubLogList (logs : list LogEntry).

(** ** The monad of [API]'s methods: state and exceptions *)
Section Api.
Context {C D : Type}.
Context (cache : TemporalCache C) (db_service : SQliteConn D).

Definition M (X : Type) : Type := World C D → Result X * World C D.

Definition ret {X} (x : X) : M X := λ w, (Ok x, w).

Definition bind {X Y} (m : M X) (k : X → M Y) : M Y := λ w,
  match m w with
  | (Ok x, w') => k x w'
  | (Raise e, w') => (Raise e, w')
  end.

Definition raise {X} (e : Exn) : M X := λ w, (Raise e, w).

(** [try: body / except Exception as e: handler]. *)
Definition try_except {X} (body : M X) (handler : Exn → M X) : M X := λ w,
  match body w with
  | (Ok x, w') => (Ok x, w')
  | (Raise e, w') => handler e w'
  end.

Definition emit (ev : Event) (w : World C D) : World C D :=
  mkWorld (w_cache w) (w_db w) (w_tasks w) (w_trace w ++ [ev]).

Definition print (p : Printed) : M unit := λ w, (Ok tt, emit (EvPrint p) w).

(** [assert cond, msg]. *)
Definition assert_ (cond : bool) (msg : string) : M unit :=
  if cond then ret tt else raise (AssertionError msg).

(** [for x in xs: body]. *)
Fixpoint for_each {X} (xs : list X) (body : X → M unit) : M unit :=
  match xs with
  | [] => ret tt
  | x :: xs' => bind (body x) (λ _, for_each xs' body)
  end.

(** *** Calls to the collaborators *)

Definition call_add_log (log_entry : LogEntry) : M unit := λ w,
  let w1 := emit (EvCacheAddLog log_entry) w in
  let '(r, c) := tc_add_log cache log_entry (w_cache w1) in
  (r, mkWorld c (w_db w1) (w_tasks w1) (w_trace w1)).

Definition call_prune_cache : M (list LogEntry) := λ w,
  let w1 := emit EvCachePrune w in
  let '(r, c) := tc_prune_cache cache (w_cache w1) in
  (r, mkWorld c (w_db w1) (w_tasks w1) (w_trace w1)).

Definition call_cache_get_logs (start_time end_time : Z) : M (list LogEntry) := λ w,
  (Ok (tc_get_logs cache start_time end_time (w_cache w)),
   emit (EvCacheGetLogs start_time end_time) w).

Definition call_cache_get_all_logs : M (list LogEntry) := λ w,
  (Ok (tc_get_all_logs cache (w_cache w)), emit EvCacheGetAllLogs w).

Definition call_save_logs (logs : list LogEntry) : M unit := λ w,
  let w1 := emit (EvDbSaveLogs logs) w in
  (Ok tt, mkWorld (w_cache w1) (db_save_logs db_service logs (w_db w1))
                  (w_tasks w1) (w_trace w1)).

Definition call_db_get_logs (start_time end_time : Z) : M (list LogEntry) := λ w,
  (Ok (db_get_logs db_service start_time end_time (w_db w)),
   emit (EvDbGetLogs start_time end_time) w).

(** [background_task.add_task(func, *args)]: the call is appended to the
    tasks of the request, nothing runs. *)
Definition add_task (t : Task) : M unit := λ w,
  (Ok tt, mkWorld (w_cache w) (w_db w) (w_tasks w ++ [t]) (w_trace w)).

(** *** [API.__prune_logs]
<<
    try:
        pruned_logs = self.__cache.prune_cache()
        print(f"Pruned logs: {pruned_logs}")
        return pruned_logs
    except Exception as e:
        print(f"Error during pruning: {e}")
>>
    The handler falls off the end of the function: the result is [None]. *)
Definition __prune_logs : M PrunedLogs :=
  try_except
    (bind call_prune_cache (λ pruned_logs,
     bind (print (PPrunedLogs pruned_logs)) (λ _,
     ret (Some pruned_logs))))
    (λ e, bind (print (PPruneError e)) (λ _, ret None)).

(** [not pruned_logs]: [None] and the empty list are false values. *)
Definition not_ (pruned_logs : PrunedLogs) : bool :=
  match pruned_logs with
  | None => true
  | Some [] => true
  | Some (_ :: _) => false
  end.

(** *** [API.__save_pruned_logs]
<<
    if not pruned_logs:
        return self
    self.__db_service.save_logs(pruned_logs)
    return self
>> *)
Definition __save_pruned_logs (pruned_logs : PrunedLogs) : M unit :=
  if not_ pruned_logs then ret tt
  else match pruned_logs with
       | Some logs => call_save_logs logs
       | None => ret tt
       end.

Definition isinstance_LogList (log_list : Submission) : bool :=
  match log_list with
  | SubLogList _ => true
  | SubLogEntry _ => false
  end.

Definition isinstance_LogEntry (log_list : Submission) : bool :=
  match log_list with
  | SubLogEntry _ => true
  | SubLogList _ => false
  end.

(** *** [API.add_logs] *)
Definition add_logs (log_list : Submission) : M JSONResponse :=
  bind (assert_ (isinstance_LogEntry log_list || isinstance_LogList log_list)
                "Invalid input type") (λ _,
  bind (match log_list with
        | SubLogList logs =>
            bind (for_each logs (λ log_entry,
                    bind (print (PLogEntry log_entry)) (λ _,
                    call_add_log log_entry))) (λ _,
            ret (length logs))
        | SubLogEntry log_entry =>
            bind (call_add_log log_entry) (λ _, ret 1%nat)
        end) (λ logs_count,
  bind __prune_logs (λ pruned_logs,
  bind (add_task (TaskSavePrunedLogs pruned_logs)) (λ _,
  ret (mkJSONResponse
         (ContentAdded ("Successfully added " +:+ pretty logs_count +:+ " logs")
                       logs_count)
         201))))).

(** *** [API.get_logs] *)
Definition get_logs (start_time end_time : Z) : M JSONResponse :=
  bind (call_cache_get_logs start_time end_time) (λ cache_logs,
  bind (call_db_get_logs start_time end_time) (λ db_logs,
  let overall_logs := _merge_logs cache_logs db_logs in
  let jsonable_logs := map jsonable_log overall_logs in
  ret (mkJSONResponse (ContentLogs jsonable_logs) 200))).

(** *** [API.get_all_logs] *)
Definition get_all_logs : M JSONResponse :=
  bind call_cache_get_all_logs (λ cache_all,
  ret (mkJSONResponse (ContentLogs (map jsonable_log cache_all)) 200)).

(** *** The framework around a handler

    FastAPI gives each request a [BackgroundTasks] of its own, sends the
    response the handler returned, and only then runs the tasks that were
    added, in the order they were added; an exception escaping the
    handler is answered by the framework and no task runs. *)
Definition run_task (t : Task) : M unit :=
  match t with
  | TaskSavePrunedLogs pruned_logs => __save_pruned_logs pruned_logs
  end.

Definition serve (handler : M JSONResponse) (w : World C D) : World C D :=
  let w0 := mkWorld (w_cache w) (w_db w) [] (w_trace w) in
  match handler w0 with
  | (Ok r, w1) =>
      let w2 := emit (EvResponse r) w1 in
      match for_each (w_tasks w2) run_task w2 with
      | (Ok _, w3) => w3
      | (Raise e, w3) => emit (EvUnhandled e) w3
      end
  | (Raise e, w1) => emit (EvUnhandled e) w1
  end.
End Api.

(** ** Definitions used to state the properties *)

(** The elements of [l] whose key is neither in [seen] nor carried by an
    earlier element of [l]: what a loop of [_merge_logs] appends. *)
Fixpoint keep_new `{LogLike A} (seen : gset LogKey) (l : list A) : list A :=
  match l with
  | [] => []
  | x :: l' =>
      if bool_decide (log_key x ∉ seen)
      then x :: keep_new (seen ∪ {[ log_key x ]}) l'
      else keep_new seen l'
  end.

Definition keys_of `{LogLike A} (l : list A) : gset LogKey :=
  list_to_set (log_key <$> l).

(** The elements of [l] with timestamp [t], in the order of [l]. *)
Definition at_timestamp `{LogLike A} (t : Z) (l : list A) : list A :=
  filter (λ x, timestamp x = t) l.

(** The entries of a submission, in submission order. *)
Definition submitted (log_list : Submission) : list LogEntry :=
  match log_list with
  | SubLogEntry log_entry => [log_entry]
  | SubLogList logs => logs
  end.

(** The entries given to [add_log], in call order. *)
Definition added_entries (tr : list Event) : list LogEntry :=
  omap (λ ev, match ev with EvCacheAddLog e => Some e | _ => None end) tr.

(** The arguments of the calls to [save_logs], in call order. *)
Definition saved_batches (tr : list Event) : list (list LogEntry) :=
  omap (λ ev, match ev with EvDbSaveLogs l => Some l | _ => None end) tr.

(** The cache after [add_log] was called on each of [logs] in order. *)
Definition cache_after_adds {C} (cache : AcceptingCache C) (logs : list LogEntry) (c : C) : C :=
  foldl (λ c log_entry, cache_add_log cache log_entry c) c logs.

(** What the trace shows of the first half of [add_logs]. *)
Definition add_events (log_list : Submission) : list Event :=
  match log_list with
  | SubLogEntry log_entry => [EvCacheAddLog log_entry]
  | SubLogList logs =>
      logs ≫= (λ log_entry, [EvPrint (PLogEntry log_entry); EvCacheAddLog log_entry])
  end.

(** The order in which [list.sort] leaves the list. *)
Definition le_timestamp_rel `{LogLike A} (x y : A) : Prop :=
  timestamp x ≤ timestamp y.

(** What [__prune_logs] returns and what it prints, from what
    [prune_cache] did. *)
Definition prune_outcome (r : Result (list LogEntry)) : PrunedLogs :=
  match r with
  | Ok pruned_logs => Some pruned_logs
  | Raise _ => None
  end.

Definition prune_report (r : Result (list LogEntry)) : Printed :=
  match r with
  | Ok pruned_logs => PPrunedLogs pruned_logs
  | Raise e => PPruneError e
  end.

(** The calls to [save_logs] that a prune result calls for: one call with
    the pruned entries when there are some, none otherwise. *)
Definition expected_saves (pruned_logs : PrunedLogs) : list (list LogEntry) :=
  match pruned_logs with
  | Some (log :: logs) => [log :: logs]
  | Some [] => []
  | None => []
  end.

(** The acknowledgment of [add_logs] for [n] entries. *)
Definition acknowledgment (n : nat) : JSONResponse :=
  mkJSONResponse
    (ContentAdded ("Successfully added " +:+ pretty n +:+ " logs") n) 201.

(** A range query is rejected as an input error: while it is handled the
    cache is not asked, and what comes back is not a result. *)
Definition range_rejected {C D} (cache : TemporalCache C) (db_service : SQliteConn D)
    (start_time end_time : Z) (w : World C D) : Prop :=
  let '(r, w') := get_logs cache db_service start_time end_time w in
  ∃ events,
    w_trace w' = w_trace w ++ events
    ∧ (∀ s e, EvCacheGetLogs s e ∉ events)
    ∧ (∀ logs, r ≠ Ok (mkJSONResponse (ContentLogs logs) 200)).

(** What the first half of [add_logs] does to the cache: [add_log] on each
    entry in order, up to the first call that raises. *)
Fixpoint try_adds {C} (cache : TemporalCache C) (logs : list LogEntry) (c : C)
    : Result unit * C :=
  match logs with
  | [] => (Ok tt, c)
  | log_entry :: logs' =>
      match tc_add_log cache log_entry c with
      | (Ok _, c') => try_adds cache logs' c'
      | (Raise e, c') => (Raise e, c')
      end
  end.

(** The entries given to [add_log] on the way: all of them, or those up to
    and including the one on which [add_log] raised. *)
Fixpoint attempted {C} (cache : TemporalCache C) (logs : list LogEntry) (c : C)
    : list LogEntry :=
  match logs with
  | [] => []
  | log_entry :: logs' =>
      log_entry ::
        match tc_add_log cache log_entry c with
        | (Ok _, c') => attempted cache logs' c'
        | (Raise _, _) => []
        end
  end.

(** The submission cut down to the entries given to [add_log]. *)
Definition attempted_submission {C} (cache : TemporalCache C)
    (log_list : Submission) (c : C) : Submission :=
  match log_list with
  | SubLogEntry log_entry => SubLogEntry log_entry
  | SubLogList logs => SubLogList (attempted cache logs c)
  end.

(** [add_logs] returns a response with status 201. *)
Definition returns_201 {C D} (cache : TemporalCache C) (log_list : Submission)
    (w : World C D) : Prop :=
  ∃ body w', add_logs cache log_list w = (Ok (mkJSONResponse body 201), w').

(** *** Collaborators to run the API on

    A cache that keeps its entries in a list and, on [prune_cache], gives up
    those older than [cutoff]; a cache whose [prune_cache] raises; a cache
    whose [add_log] raises when it is full; a database that keeps the saved
    entries in a list. *)
Definition in_range (start_time end_time : Z) (log : LogEntry) : bool :=
  bool_decide (start_time ≤ le_timestamp log ≤ end_time).

Definition list_cache (cutoff : Z) : AcceptingCache (list LogEntry) := {|
  cache_add_log := λ log_entry c, c ++ [log_entry];
  cache_prune_cache := λ c,
    (Ok (filter (λ log, le_timestamp log < cutoff) c),
     filter (λ log, ¬ le_timestamp log < cutoff) c);
  cache_get_logs := λ start_time end_time c,
    filter (λ log, in_range start_time end_time log = true) c;
  cache_get_all_logs := λ c, c
|}.

Definition failing_cache : AcceptingCache (list LogEntry) := {|
  cache_add_log := λ log_entry c, c ++ [log_entry];
  cache_prune_cache := λ c, (Raise (CollaboratorError "prune failed"), c);
  cache_get_logs := λ start_time end_time c,
    filter (λ log, in_range start_time end_time log = true) c;
  cache_get_all_logs := λ c, c
|}.

(** A cache with a ceiling on the number of entries it holds: [add_log]
    raises once the cache is full. *)
Definition bounded_cache (capacity : nat) : TemporalCache (list LogEntry) := {|
  tc_add_log := λ log_entry c,
    if bool_decide (length c < capacity)%nat
    then (Ok tt, c ++ [log_entry])
    else (Raise (CollaboratorError "cache is full"), c);
  tc_prune_cache := λ c, (Ok [], c);
  tc_get_logs := λ start_time end_time c,
    filter (λ log, in_range start_time end_time log = true) c;
  tc_get_all_logs := λ c, c
|}.

Definition list_db : SQliteConn (list LogEntry) := {|
  db_save_logs := λ logs d, d ++ logs;
  db_get_logs := λ start_time end_time d,
    filter (λ log, in_range start_time end_time log = true) d
|}.

Definition empty_world : World (list LogEntry) (list LogEntry) :=
  mkWorld [] [] [] [].

(** A decidable fact about concrete data, settled by evaluating its
    decision procedure. *)
Ltac by_decision :=
  match goal with
  | |- ?P => apply (bool_decide_unpack P); vm_compute; exact I
  end.

(** * Properties *)

(** ** The sort *)
Section SortFacts.
Context `{LogLike A}.
Implicit Types (x y : A) (l : list A) (t : Z).

Lemma insert_by_timestamp_perm x l : insert_by_timestamp x l ≡ₚ x :: l.
Proof.
  induction l as [|y l IH]; simpl; [done|].
  case_bool_decide; [|done].
  rewrite IH. apply Permutation_swap.
Qed.

Lemma sort_by_timestamp_perm l : sort_by_timestamp l ≡ₚ l.
Proof.
  induction l as [|x l IH]; simpl; [done|].
  rewrite insert_by_timestamp_perm, IH. done.
Qed.

Lemma insert_by_timestamp_sorted x l :
  StronglySorted le_timestamp_rel l →
  StronglySorted le_timestamp_rel (insert_by_timestamp x l).
Proof.
  induction 1 as [|y l Hs IH Hall]; simpl.
  - repeat constructor.
  - case_bool_decide as Hlt.
    + constructor; [done|].
      rewrite insert_by_timestamp_perm. constructor; [|done].
      unfold le_timestamp_rel. lia.
    + constructor; [by constructor|].
      constructor; [unfold le_timestamp_rel; lia|].
      eapply Forall_impl; [exact Hall|].
      unfold le_timestamp_rel. intros z ?. lia.
Qed.

Lemma sort_by_timestamp_sorted l :
  StronglySorted le_timestamp_rel (sort_by_timestamp l).
Proof.
  induction l; simpl; [constructor|]. by apply insert_by_timestamp_sorted.
Qed.

Lemma at_timestamp_cons t x l :
  at_timestamp t (x :: l)
  = if bool_decide (timestamp x = t) then x :: at_timestamp t l else at_timestamp t l.
Proof.
  unfold at_timestamp. rewrite filter_cons.
  case_bool_decide; case_decide; done.
Qed.

(** Insertion goes past strictly earlier elements only, so it does not
    change the order among elements of one timestamp. *)
Lemma at_timestamp_insert t x l :
  at_timestamp t (insert_by_timestamp x l) = at_timestamp t (x :: l).
Proof.
  induction l as [|y l IH]; simpl; [done|].
  case_bool_decide as Hlt; [|done].
  rewrite at_timestamp_cons, IH, !at_timestamp_cons.
  repeat case_bool_decide; try done; lia.
Qed.

Lemma sort_by_timestamp_stable t l :
  at_timestamp t (sort_by_timestamp l) = at_timestamp t l.
Proof.
  induction l as [|x l IH]; simpl; [done|].
  rewrite at_timestamp_insert, !at_timestamp_cons, IH. done.
Qed.

Lemma at_timestamp_elem_of t x l :
  x ∈ at_timestamp t l ↔ timestamp x = t ∧ x ∈ l.
Proof. unfold at_timestamp. rewrite list_elem_of_filter. done. Qed.

(** Two sorted lists with the same elements in the same order at every
    timestamp are equal: the result of a stable sort is determined. *)
Lemma stable_sort_unique l1 l2 :
  StronglySorted le_timestamp_rel l1 →
  StronglySorted le_timestamp_rel l2 →
  (∀ t, at_timestamp t l1 = at_timestamp t l2) →
  l1 = l2.
Proof.
  intros Hs1. revert l2.
  induction Hs1 as [|x l1 Hs1 IH Hx]; intros l2 Hs2 Heq.
  - destruct l2 as [|y l2]; [done|].
    specialize (Heq (timestamp y)). rewrite at_timestamp_cons in Heq.
    rewrite bool_decide_eq_true_2 in Heq by done. done.
  - destruct Hs2 as [|y l2 Hs2 Hy].
    { specialize (Heq (timestamp x)). rewrite at_timestamp_cons in Heq.
      rewrite bool_decide_eq_true_2 in Heq by done. done. }
    assert (x ∈ y :: l2) as Hxin.
    { eapply (at_timestamp_elem_of (timestamp x)). rewrite <- Heq.
      rewrite at_timestamp_cons, bool_decide_eq_true_2 by done. left. }
    assert (y ∈ x :: l1) as Hyin.
    { eapply (at_timestamp_elem_of (timestamp y)). rewrite Heq.
      rewrite at_timestamp_cons, bool_decide_eq_true_2 by done. left. }
    assert (timestamp x = timestamp y) as Hts.
    { apply Z.le_antisymm.
      - apply elem_of_cons in Hyin as [->|Hyin]; [done|].
        rewrite Forall_forall in Hx. by apply Hx.
      - apply elem_of_cons in Hxin as [->|Hxin]; [done|].
        rewrite Forall_forall in Hy. by apply Hy. }
    assert (x = y) as ->.
    { specialize (Heq (timestamp x)). rewrite !at_timestamp_cons in Heq.
      rewrite !bool_decide_eq_true_2 in Heq by done. congruence. }
    f_equal. apply IH; [done|]. intros t.
    specialize (Heq t). rewrite !at_timestamp_cons in Heq.
    case_bool_decide; congruence.
Qed.
End SortFacts.

(** ** The two loops of [_merge_logs] *)
Section MergeFacts.
Context `{LogLike A}.
Implicit Types (x y : A) (l p s : list A) (seen : gset LogKey).

Lemma keys_of_cons x l : keys_of (x :: l) = {[ log_key x ]} ∪ keys_of l.
Proof. done. Qed.

Lemma keys_of_app l1 l2 : keys_of (l1 ++ l2) = keys_of l1 ∪ keys_of l2.
Proof. unfold keys_of. rewrite fmap_app, list_to_set_app_L. done. Qed.

Lemma elem_of_keys_of k l : k ∈ keys_of l ↔ ∃ x, x ∈ l ∧ log_key x = k.
Proof.
  unfold keys_of. rewrite elem_of_list_to_set, list_elem_of_fmap.
  naive_solver.
Qed.

(** A loop started with [unique_logs = seen] and [combined_logs = acc]
    ends with the new elements appended and their keys added. *)
Lemma foldl_merge_step seen acc l :
  foldl merge_step (seen, acc) l
  = (seen ∪ keys_of (keep_new seen l), acc ++ keep_new seen l).
Proof.
  revert seen acc. induction l as [|x l IH]; intros seen acc; simpl.
  - f_equal; [set_solver | by rewrite app_nil_r].
  - unfold merge_step at 2. simpl. case_bool_decide as Hnew.
    + rewrite IH, keys_of_cons, <- app_assoc. f_equal. set_solver.
    + apply IH.
Qed.

Lemma keep_new_sublist seen l : keep_new seen l `sublist_of` l.
Proof.
  revert seen. induction l as [|x l IH]; intros seen; simpl; [done|].
  case_bool_decide; [by apply sublist_skip | by apply sublist_cons].
Qed.

Lemma keep_new_keys seen l : seen ∪ keys_of (keep_new seen l) = seen ∪ keys_of l.
Proof.
  revert seen. induction l as [|x l IH]; intros seen; simpl; [done|].
  case_bool_decide as Hnew.
  - rewrite !keys_of_cons, !(assoc_L (∪)). apply IH.
  - rewrite keys_of_cons, IH.
    generalize (keys_of l). clear IH. set_solver.
Qed.

Lemma keep_new_fresh seen l x : x ∈ keep_new seen l → log_key x ∉ seen.
Proof.
  revert seen. induction l as [|y l IH]; intros seen; simpl.
  - by intros ?%elem_of_nil.
  - case_bool_decide as Hnew.
    + intros [->|Hin]%elem_of_cons; [done|]. apply IH in Hin.
      intros ?. apply Hin, elem_of_union. by left.
    + apply IH.
Qed.

Lemma keep_new_NoDup seen l : NoDup (log_key <$> keep_new seen l).
Proof.
  revert seen. induction l as [|x l IH]; intros seen; simpl; [constructor|].
  case_bool_decide as Hnew; [|apply IH].
  rewrite fmap_cons. constructor; [|apply IH].
  intros (y & Hk & Hy)%list_elem_of_fmap.
  apply keep_new_fresh in Hy. rewrite <- Hk in Hy. set_solver.
Qed.

Lemma keep_new_app seen l1 l2 :
  keep_new seen (l1 ++ l2)
  = keep_new seen l1 ++ keep_new (seen ∪ keys_of l1) l2.
Proof.
  revert seen. induction l1 as [|x l1 IH]; intros seen; simpl.
  - f_equal. unfold keys_of. simpl. by rewrite (right_id_L ∅ (∪)).
  - case_bool_decide as Hnew.
    + rewrite IH, keys_of_cons, (assoc_L (∪)). done.
    + rewrite IH, keys_of_cons.
      replace (seen ∪ ({[log_key x]} ∪ keys_of l1)) with (seen ∪ keys_of l1)
        by (generalize (keys_of l1); clear IH; set_solver).
      done.
Qed.

(** [_merge_logs] is the sort of the first occurrences in
    [cache_logs ++ db_logs]. *)
Lemma merge_logs_unfold p s :
  _merge_logs p s = sort_by_timestamp (keep_new ∅ (p ++ s)).
Proof.
  unfold _merge_logs. simpl.
  rewrite <- foldl_app, foldl_merge_step. done.
Qed.
End MergeFacts.

Lemma StronglySorted_lookup_le `{LogLike A} (l : list A) (i j : nat) (x y : A) :
  StronglySorted le_timestamp_rel l →
  (i ≤ j)%nat → l !! i = Some x → l !! j = Some y →
  timestamp x ≤ timestamp y.
Proof.
  intros Hs. revert i j.
  induction Hs as [|z l Hs IH Hz]; intros i j Hij Hi Hj; [done|].
  destruct i as [|i], j as [|j]; simpl in *; simplify_eq; try lia.
  - rewrite Forall_forall in Hz. apply Hz. by eapply list_elem_of_lookup_2.
  - apply (IH i j); [lia|done..].
Qed.

(** ** Properties of [_merge_logs] *)

(** Claim C1.  The output of [_merge_logs] never holds two entries with the
    same triple (timestamp, tag, message).  Of entries carrying a triple that
    occurs in the cache list, the output holds one that comes from the cache
    list.  In particular, merging [[e1]] against [[e2]] when the two have
    the same triple gives the one-element list [[e1]]. *)
Theorem merge_logs_dedup `{LogLike A} (cache_logs db_logs : list A) :
  NoDup (log_key <$> _merge_logs cache_logs db_logs)
  ∧ (∀ x, x ∈ _merge_logs cache_logs db_logs →
          log_key x ∈ keys_of cache_logs → x ∈ cache_logs)
  ∧ (∀ e1 e2 : A, log_key e1 = log_key e2 → _merge_logs [e1] [e2] = [e1]).
Proof.
  split; [|split].
  - rewrite merge_logs_unfold, sort_by_timestamp_perm. apply keep_new_NoDup.
  - intros x. rewrite merge_logs_unfold, sort_by_timestamp_perm, keep_new_app.
    intros [Hp|Hs]%elem_of_app Hk.
    + eapply elem_of_sublist; [done|apply keep_new_sublist].
    + apply keep_new_fresh in Hs. exfalso. apply Hs.
      apply elem_of_union. by right.
  - intros e1 e2 Hk. unfold _merge_logs, merge_step. simpl.
    rewrite (bool_decide_eq_true_2 (log_key e1 ∉ ∅)) by set_solver. simpl.
    rewrite bool_decide_eq_false_2; [done|].
    rewrite Hk. set_solver.
Qed.

(** Claim C2.  The output of [_merge_logs] is non-decreasing by timestamp,
    and its entries of one timestamp come in the order they have in
    [cache_logs ++ db_logs].  It is the stable sort of a sublist [kept] of
    that concatenation: the same elements, and at every timestamp the same
    elements in the same order as in [kept]. *)
Theorem merge_logs_ordering `{LogLike A} (cache_logs db_logs : list A) :
  (∀ (i j : nat) (x y : A),
      (i ≤ j)%nat →
      _merge_logs cache_logs db_logs !! i = Some x →
      _merge_logs cache_logs db_logs !! j = Some y →
      timestamp x ≤ timestamp y)
  ∧ (∀ t, at_timestamp t (_merge_logs cache_logs db_logs)
            `sublist_of` (cache_logs ++ db_logs))
  ∧ ∃ kept : list A,
      kept `sublist_of` (cache_logs ++ db_logs)
      ∧ _merge_logs cache_logs db_logs ≡ₚ kept
      ∧ ∀ t, at_timestamp t (_merge_logs cache_logs db_logs) = at_timestamp t kept.
Proof.
  split; [|split].
  - intros i j x y. apply StronglySorted_lookup_le.
    rewrite merge_logs_unfold. apply sort_by_timestamp_sorted.
  - intros t. rewrite merge_logs_unfold, sort_by_timestamp_stable.
    transitivity (keep_new ∅ (cache_logs ++ db_logs)).
    + apply sublist_filter.
    + apply keep_new_sublist.
  - exists (keep_new ∅ (cache_logs ++ db_logs)).
    rewrite merge_logs_unfold. split; [apply keep_new_sublist|].
    split; [apply sort_by_timestamp_perm|].
    intros t. apply sort_by_timestamp_stable.
Qed.

(** Claim C9.  [_merge_logs] neither loses nor invents log events: the
    triples of the output are those of the cache list together with those of
    the database list, and every element of the output is an element of one
    of the two lists. *)
Theorem merge_logs_same_events `{LogLike A} (cache_logs db_logs : list A) :
  keys_of (_merge_logs cache_logs db_logs) = keys_of cache_logs ∪ keys_of db_logs
  ∧ ∀ x, x ∈ _merge_logs cache_logs db_logs → x ∈ cache_logs ∨ x ∈ db_logs.
Proof.
  rewrite merge_logs_unfold. split.
  - unfold keys_of at 1. rewrite sort_by_timestamp_perm.
    fold (keys_of (keep_new ∅ (cache_logs ++ db_logs))).
    rewrite <- keys_of_app.
    pose proof (keep_new_keys ∅ (cache_logs ++ db_logs)) as Hk.
    by rewrite !(left_id_L ∅ (∪)) in Hk.
  - intros x. rewrite sort_by_timestamp_perm. intros Hx.
    apply elem_of_app. eapply elem_of_sublist; [done|apply keep_new_sublist].
Qed.

(** ** [_merge_logs] over the store *)
Section MergeStoreFacts.
Context `{LogLike A}.
Implicit Types (h : gmap loc (list A)) (src dst : loc).

(** A loop that has walked [pre] and has [rest] ahead of it, with enough
    fuel for [rest], ends; it leaves the store as it was except for
    [combined_logs], which it brings to what [merge_step] computes. *)
Lemma merge_loop_run rest : ∀ pre fuel src dst unique_logs combined h,
  src ≠ dst →
  h !! src = Some (pre ++ rest) →
  h !! dst = Some combined →
  (length rest < fuel)%nat →
  merge_loop fuel src dst (length pre) unique_logs h
  = Some ((foldl merge_step (unique_logs, combined) rest).1,
          <[dst := (foldl merge_step (unique_logs, combined) rest).2]> h).
Proof.
  induction rest as [|x rest IH];
    intros pre fuel src dst u acc h Hne Hsrc Hdst Hfuel;
    (destruct fuel as [|fuel]; [simpl in Hfuel; lia|]); simpl.
  - rewrite Hsrc, app_nil_r, lookup_ge_None_2 by lia.
    by rewrite insert_id.
  - rewrite Hsrc, list_lookup_middle by done.
    unfold merge_step at 2 4. simpl. case_bool_decide as Hnew.
    + rewrite Hdst.
      replace (S (length pre)) with (length (pre ++ [x]))
        by (rewrite length_app; simpl; lia).
      rewrite (IH (pre ++ [x]) fuel src dst _ (acc ++ [x])).
      * by rewrite insert_insert_eq.
      * done.
      * rewrite lookup_insert_ne by done. by rewrite <- app_assoc.
      * by rewrite lookup_insert_eq.
      * simpl in Hfuel. lia.
    + replace (S (length pre)) with (length (pre ++ [x]))
        by (rewrite length_app; simpl; lia).
      apply IH; [done| |done|simpl in Hfuel; lia].
      by rewrite <- app_assoc.
Qed.

Lemma merge_logs_store_run h cache_logs db_logs lc ld :
  h !! cache_logs = Some lc →
  h !! db_logs = Some ld →
  _merge_logs_store h cache_logs db_logs
  = Some (fresh (dom h), <[fresh (dom h) := _merge_logs lc ld]> h).
Proof.
  intros Hc Hd. unfold _merge_logs_store, _merge_logs.
  set (r := fresh (dom h)).
  assert (h !! r = None) as Hr by apply not_elem_of_dom, is_fresh.
  assert (cache_logs ≠ r) as Hcr by congruence.
  assert (db_logs ≠ r) as Hdr by congruence.
  rewrite (merge_loop_run lc [] _ cache_logs r ∅ []); first last.
  { unfold loop_fuel. rewrite lookup_insert_ne, Hc by done. simpl. lia. }
  { by rewrite lookup_insert_eq. }
  { by rewrite lookup_insert_ne. }
  { done. }
  cbv beta iota delta [mbind option_bind]. rewrite insert_insert_eq.
  rewrite (merge_loop_run ld [] _ db_logs r _ (foldl merge_step (∅, []) lc).2);
    first last.
  { unfold loop_fuel. rewrite lookup_insert_ne, Hd by done. simpl. lia. }
  { by rewrite lookup_insert_eq. }
  { by rewrite lookup_insert_ne. }
  { done. }
  cbv beta iota delta [mbind option_bind].
  rewrite insert_insert_eq, lookup_insert_eq.
  cbv beta iota delta [mbind option_bind].
  rewrite insert_insert_eq. do 3 f_equal.
  by destruct (foldl merge_step (∅, []) lc).
Qed.
End MergeStoreFacts.

(** Claim C6.  [_merge_logs] is a function of the contents of its two lists
    and of nothing else, it returns on every pair of lists, and it changes
    no list that existed before the call: run on a store that holds the two
    lists (the two references may be the same list), it returns a reference
    to a new list whose content is [_merge_logs] of the two contents, and
    every list of the store, the two inputs among them, is as it was.
    Merging two empty lists gives the empty list. *)
Theorem merge_logs_pure `{LogLike A} (h : gmap loc (list A))
    (cache_logs db_logs : loc) (lc ld : list A) :
  h !! cache_logs = Some lc →
  h !! db_logs = Some ld →
  (∃ r h',
      _merge_logs_store h cache_logs db_logs = Some (r, h')
      ∧ h !! r = None
      ∧ h' !! r = Some (_merge_logs lc ld)
      ∧ h' !! cache_logs = Some lc
      ∧ h' !! db_logs = Some ld
      ∧ ∀ p, p ≠ r → h' !! p = h !! p)
  ∧ _merge_logs (A:=A) [] [] = [].
Proof.
  intros Hc Hd. split; [|done].
  assert (h !! fresh (dom h) = None) as Hr by apply not_elem_of_dom, is_fresh.
  eexists _, _. split; [by apply merge_logs_store_run|].
  split; [done|]. split; [by rewrite lookup_insert_eq|].
  split; [rewrite lookup_insert_ne by congruence; done|].
  split; [rewrite lookup_insert_ne by congruence; done|].
  intros p Hp. by rewrite lookup_insert_ne.
Qed.

(** ** The handlers over any cache *)
Section ApiGeneral.
Context {C D : Type}.
Context (cache : TemporalCache C) (db_service : SQliteConn D).
Implicit Types (w : World C D) (log_list : Submission).

Lemma attempted_all logs (c : C) :
  (try_adds cache logs c).1 = Ok tt → attempted cache logs c = logs.
Proof.
  revert c. induction logs as [|log_entry logs IH]; intros c; simpl; [done|].
  destruct (tc_add_log cache log_entry c) as [[[]|e] c']; [|done].
  intros Hok. f_equal. by apply IH.
Qed.

Lemma for_each_add_log_general logs w :
  for_each logs (λ log_entry,
      bind (print (PLogEntry log_entry)) (λ _, call_add_log cache log_entry)) w
  = ((try_adds cache logs (w_cache w)).1,
     mkWorld (try_adds cache logs (w_cache w)).2 (w_db w) (w_tasks w)
             (w_trace w ++ add_events (SubLogList (attempted cache logs (w_cache w))))).
Proof.
  revert w. induction logs as [|log_entry logs IH]; intros w.
  - simpl. unfold ret. rewrite app_nil_r. by destruct w.
  - cbn [for_each try_adds attempted]. unfold bind at 1. unfold bind at 1.
    unfold print at 1. unfold call_add_log at 1. unfold emit.
    cbn [w_cache w_db w_tasks w_trace].
    destruct (tc_add_log cache log_entry (w_cache w)) as [[[]|e] c'].
    + rewrite IH. cbn [w_cache w_db w_tasks w_trace fst snd].
      do 2 f_equal. unfold add_events. rewrite bind_cons, <- !app_assoc. done.
    + cbn [fst snd]. do 2 f_equal. rewrite <- app_assoc. done.
Qed.

Lemma prune_logs_general w :
  __prune_logs cache w
  = (Ok (prune_outcome (tc_prune_cache cache (w_cache w)).1),
     mkWorld (tc_prune_cache cache (w_cache w)).2 (w_db w) (w_tasks w)
             (w_trace w ++ [EvCachePrune;
                            EvPrint (prune_report (tc_prune_cache cache (w_cache w)).1)])).
Proof.
  unfold __prune_logs, try_except, bind, call_prune_cache, print, ret, emit.
  cbn [w_cache w_db w_tasks w_trace].
  destruct (tc_prune_cache cache (w_cache w)) as [[pruned_logs|e] c];
    cbn [w_cache w_db w_tasks w_trace fst snd prune_outcome prune_report];
    by rewrite <- app_assoc.
Qed.

(** The whole of [add_logs]: either every [add_log] returns and the
    function goes on to the prune, the task and the acknowledgment, or the
    exception of the first [add_log] that raises ends it at once. *)
Lemma add_logs_general log_list w :
  add_logs cache log_list w
  = match try_adds cache (submitted log_list) (w_cache w) with
    | (Ok _, c1) =>
        (Ok (acknowledgment (length (submitted log_list))),
         mkWorld (tc_prune_cache cache c1).2 (w_db w)
           (w_tasks w
            ++ [TaskSavePrunedLogs (prune_outcome (tc_prune_cache cache c1).1)])
           (w_trace w ++ add_events log_list
              ++ [EvCachePrune; EvPrint (prune_report (tc_prune_cache cache c1).1)]))
    | (Raise e, c1) =>
        (Raise e,
         mkWorld c1 (w_db w) (w_tasks w)
           (w_trace w
            ++ add_events (attempted_submission cache log_list (w_cache w))))
    end.
Proof.
  unfold add_logs.
  assert (isinstance_LogEntry log_list || isinstance_LogList log_list = true)
    as -> by (by destruct log_list).
  unfold assert_. unfold bind at 1. unfold ret at 1.
  unfold bind at 1.
  destruct log_list as [log_entry|logs].
  - unfold bind at 1. unfold call_add_log, emit, ret at 1.
    cbn [w_cache w_db w_tasks w_trace submitted try_adds attempted_submission
         add_events].
    destruct (tc_add_log cache log_entry (w_cache w)) as [[[]|e] c']; [|done].
    unfold bind at 1. rewrite prune_logs_general.
    cbn [w_cache w_db w_tasks w_trace].
    unfold bind, add_task, ret. cbn [w_cache w_db w_tasks w_trace length].
    unfold acknowledgment. by rewrite <- !app_assoc.
  - unfold bind at 1. rewrite for_each_add_log_general. cbn [submitted].
    pose proof (attempted_all logs (w_cache w)) as Hall.
    destruct (try_adds cache logs (w_cache w)) as [[[]|e] c1];
      cbn [fst snd attempted_submission] in *; [|done].
    rewrite Hall by done. unfold ret at 1.
    unfold bind at 1. rewrite prune_logs_general.
    cbn [w_cache w_db w_tasks w_trace].
    unfold bind, add_task, ret. cbn [w_cache w_db w_tasks w_trace].
    unfold acknowledgment. by rewrite <- !app_assoc.
Qed.
End ApiGeneral.

Lemma try_adds_accepting {C} (cache : AcceptingCache C) (logs : list LogEntry) (c : C) :
  try_adds cache logs c = (Ok tt, cache_after_adds cache logs c).
Proof.
  revert c. induction logs as [|log_entry logs IH]; intros c; [done|].
  cbn [try_adds accepting_cache tc_add_log cache_after_adds foldl]. apply IH.
Qed.

(** ** The write path and the read path *)
Section ApiFacts.
Context {C D : Type}.
Context (cache : AcceptingCache C) (db_service : SQliteConn D).
Implicit Types (w : World C D) (log_list : Submission).

Lemma for_each_add_log_run logs w :
  for_each logs (λ log_entry,
      bind (print (PLogEntry log_entry)) (λ _, call_add_log cache log_entry)) w
  = (Ok tt,
     mkWorld (cache_after_adds cache logs (w_cache w)) (w_db w) (w_tasks w)
             (w_trace w ++ add_events (SubLogList logs))).
Proof.
  rewrite for_each_add_log_general.
  rewrite attempted_all by (by rewrite try_adds_accepting).
  by rewrite try_adds_accepting.
Qed.

Lemma prune_logs_run w :
  __prune_logs cache w
  = (Ok (prune_outcome (cache_prune_cache cache (w_cache w)).1),
     mkWorld (cache_prune_cache cache (w_cache w)).2 (w_db w) (w_tasks w)
             (w_trace w ++ [EvCachePrune;
                            EvPrint (prune_report (cache_prune_cache cache (w_cache w)).1)])).
Proof. apply prune_logs_general. Qed.

(** The whole of [add_logs], in one equation. *)
Lemma add_logs_run log_list w :
  let c1 := cache_after_adds cache (submitted log_list) (w_cache w) in
  let r := (cache_prune_cache cache c1).1 in
  add_logs cache log_list w
  = (Ok (acknowledgment (length (submitted log_list))),
     mkWorld (cache_prune_cache cache c1).2 (w_db w)
             (w_tasks w ++ [TaskSavePrunedLogs (prune_outcome r)])
             (w_trace w ++ add_events log_list
                ++ [EvCachePrune; EvPrint (prune_report r)])).
Proof.
  intros c1 r. rewrite add_logs_general, try_adds_accepting. reflexivity.
Qed.

Lemma save_pruned_logs_run (pruned_logs : PrunedLogs) w :
  __save_pruned_logs db_service pruned_logs w
  = (Ok tt,
     match pruned_logs with
     | Some (log :: logs) =>
         mkWorld (w_cache w) (db_save_logs db_service (log :: logs) (w_db w))
                 (w_tasks w) (w_trace w ++ [EvDbSaveLogs (log :: logs)])
     | _ => w
     end).
Proof. by destruct pruned_logs as [[|log logs]|]. Qed.

Lemma saved_batches_app tr1 tr2 :
  saved_batches (tr1 ++ tr2) = saved_batches tr1 ++ saved_batches tr2.
Proof. unfold saved_batches. apply omap_app. Qed.

Lemma added_entries_app tr1 tr2 :
  added_entries (tr1 ++ tr2) = added_entries tr1 ++ added_entries tr2.
Proof. unfold added_entries. apply omap_app. Qed.

Lemma added_entries_add_events log_list :
  added_entries (add_events log_list) = submitted log_list.
Proof.
  destruct log_list as [log_entry|logs]; [done|].
  unfold add_events, submitted.
  induction logs as [|log_entry logs IH]; [done|].
  rewrite bind_cons, added_entries_app, IH. done.
Qed.

Lemma saved_batches_add_events log_list :
  saved_batches (add_events log_list) = [].
Proof.
  destruct log_list as [log_entry|logs]; [done|].
  unfold add_events.
  induction logs as [|log_entry logs IH]; [done|].
  rewrite bind_cons, saved_batches_app, IH. done.
Qed.

(** A request to [POST /logs] from start to end: the handler, the
    response, then the one task. *)
Lemma serve_add_logs_trace log_list w :
  let c1 := cache_after_adds cache (submitted log_list) (w_cache w) in
  let r := (cache_prune_cache cache c1).1 in
  w_trace (serve db_service (add_logs cache log_list) w)
  = w_trace w
    ++ (add_events log_list ++ [EvCachePrune; EvPrint (prune_report r)])
    ++ EvResponse (acknowledgment (length (submitted log_list)))
    :: (EvDbSaveLogs <$> expected_saves (prune_outcome r)).
Proof.
  intros c1 r. unfold serve. rewrite add_logs_run.
  cbn [w_cache w_db w_tasks w_trace emit app for_each run_task].
  unfold emit. cbn [w_cache w_db w_tasks w_trace app for_each run_task].
  unfold bind at 1. rewrite save_pruned_logs_run. unfold ret.
  fold c1. fold r.
  destruct (prune_outcome r) as [[|log logs]|];
    cbn [w_trace expected_saves fmap list_fmap];
    rewrite <- ?app_assoc; simpl; by rewrite <- ?app_assoc.
Qed.
End ApiFacts.

Lemma get_logs_run {C D} (cache : TemporalCache C) (db_service : SQliteConn D)
    (start_time end_time : Z) (w : World C D) :
  get_logs cache db_service start_time end_time w
  = (Ok (mkJSONResponse
           (ContentLogs
              (jsonable_log <$>
                 _merge_logs (tc_get_logs cache start_time end_time (w_cache w))
                             (db_get_logs db_service start_time end_time (w_db w))))
           200),
     mkWorld (w_cache w) (w_db w) (w_tasks w)
             (w_trace w ++ [EvCacheGetLogs start_time end_time;
                            EvDbGetLogs start_time end_time])).
Proof.
  unfold get_logs, bind, call_cache_get_logs, call_db_get_logs, ret, emit.
  cbn [w_cache w_db w_tasks w_trace]. by rewrite <- app_assoc.
Qed.

(** ** Properties of [get_logs] *)

(** Claim C3, as stated, fails: the query from 5 to 3 (the end is earlier
    than the start) is not rejected.  [get_logs] asks the cache with these
    bounds and returns a result with status 200. *)
Lemma get_logs_reversed_range_not_rejected :
  ¬ range_rejected (list_cache 0) list_db 5 3 empty_world.
Proof.
  unfold range_rejected. rewrite get_logs_run.
  intros (events & Hevents & Hcache & _).
  cbn [w_trace] in Hevents. apply app_inv_head in Hevents as <-.
  apply (Hcache 5 3). left.
Qed.

(** Claim C3, amended.  [get_logs] rejects no range.  For every start and
    end, the end earlier than the start included, it asks the cache and then
    the database with these bounds, once each, and returns status 200 with
    the merge of the two answers. *)
Theorem get_logs_no_range_check {C D} (cache : TemporalCache C)
    (db_service : SQliteConn D) (start_time end_time : Z) (w : World C D) :
  get_logs cache db_service start_time end_time w
  = (Ok (mkJSONResponse
           (ContentLogs
              (jsonable_log <$>
                 _merge_logs (tc_get_logs cache start_time end_time (w_cache w))
                             (db_get_logs db_service start_time end_time (w_db w))))
           200),
     mkWorld (w_cache w) (w_db w) (w_tasks w)
             (w_trace w ++ [EvCacheGetLogs start_time end_time;
                            EvDbGetLogs start_time end_time]))
  ∧ ¬ range_rejected cache db_service start_time end_time w.
Proof.
  split; [apply get_logs_run|].
  unfold range_rejected. rewrite get_logs_run.
  intros (events & Hevents & Hcache & _).
  cbn [w_trace] in Hevents. apply app_inv_head in Hevents as <-.
  apply (Hcache start_time end_time). left.
Qed.

(** ** Properties of [add_logs] *)

(** Claim C4: what the code does.  In every request to [POST /logs] the call
    to [prune_cache] happens before the response; only [save_logs] happens
    after it. *)
Theorem add_logs_prunes_before_response {C D} (cache : AcceptingCache C)
    (db_service : SQliteConn D) (log_list : Submission) (w : World C D) :
  ∃ before resp after,
    w_trace (serve db_service (add_logs cache log_list) w)
    = w_trace w ++ before ++ EvResponse resp :: after
    ∧ (EvCachePrune ∈ before)
    ∧ (EvCachePrune ∉ after)
    ∧ (∀ logs, EvDbSaveLogs logs ∉ before)
    ∧ (∀ r, EvResponse r ∉ before).
Proof.
  eexists _, _, _. split; [apply serve_add_logs_trace|].
  assert (∀ ev, ev ∈ add_events log_list →
                (∃ e, ev = EvCacheAddLog e) ∨ (∃ p, ev = EvPrint p)) as Hadd.
  { intros ev. destruct log_list as [log_entry|logs]; simpl.
    - intros ->%list_elem_of_singleton. eauto.
    - intros (log_entry & Hev & _)%list_elem_of_bind.
      apply elem_of_cons in Hev as [->|Hev]; [eauto|].
      apply list_elem_of_singleton in Hev as ->. eauto. }
  repeat split.
  - apply elem_of_app. right. left.
  - intros (l & ? & _)%list_elem_of_fmap. done.
  - intros logs [Hin|Hin]%elem_of_app.
    + apply Hadd in Hin as [[e ?]|[p ?]]; done.
    + apply elem_of_cons in Hin as [?|Hin]; [done|].
      apply list_elem_of_singleton in Hin. done.
  - intros r [Hin|Hin]%elem_of_app.
    + apply Hadd in Hin as [[e ?]|[p ?]]; done.
    + apply elem_of_cons in Hin as [?|Hin]; [done|].
      apply list_elem_of_singleton in Hin. done.
Qed.


(** Claim C7.  When [prune_cache] raises during [add_logs], the exception is
    printed, [add_logs] still returns its acknowledgment, and the request
    ends with that response sent and with no exception reaching the
    framework. *)
Theorem prune_failure_contained {C D} (cache : AcceptingCache C)
    (db_service : SQliteConn D) (log_list : Submission) (w : World C D)
    (e : Exn) (c' : C) :
  cache_prune_cache cache (cache_after_adds cache (submitted log_list) (w_cache w))
    = (Raise e, c') →
  ∃ w' events,
    add_logs cache log_list w
      = (Ok (acknowledgment (length (submitted log_list))), w')
    ∧ w_cache w' = c'
    ∧ w_trace (serve db_service (add_logs cache log_list) w) = w_trace w ++ events
    ∧ EvPrint (PPruneError e) ∈ events
    ∧ EvResponse (acknowledgment (length (submitted log_list))) ∈ events
    ∧ ∀ e', EvUnhandled e' ∉ events.
Proof.
  intros Hprune. eexists _, _. split; [apply add_logs_run|].
  rewrite serve_add_logs_trace, Hprune.
  cbn [w_cache w_trace fst snd prune_report prune_outcome expected_saves
       fmap list_fmap].
  split; [done|]. split; [done|].
  assert (∀ e', EvUnhandled e' ∉ add_events log_list) as Hadd.
  { intros e'. destruct log_list as [log_entry|logs]; simpl.
    - by intros ?%list_elem_of_singleton.
    - intros (log_entry & Hev & _)%list_elem_of_bind.
      apply elem_of_cons in Hev as [?|Hev]; [done|].
      by apply list_elem_of_singleton in Hev. }
  split; [|split].
  - rewrite !elem_of_app. left. right. right. left.
  - rewrite !elem_of_app. right. left.
  - intros e'. rewrite !elem_of_app, !elem_of_cons, elem_of_nil.
    intros [[Hin|[?|[?|?]]]|[?|?]]; try done.
    by apply Hadd in Hin.
Qed.

(** Claim C8.  [__save_pruned_logs] calls [save_logs] exactly when it is
    given a non-empty list, and then once and with that list; given [None]
    or the empty list it calls nothing and leaves the database as it was.
    Over a whole request: [save_logs] is called once, with the entries
    [prune_cache] returned, when these are not empty, and is not called
    when [prune_cache] returned nothing or raised. *)
Theorem save_iff_pruned_nonempty {C D} (cache : AcceptingCache C)
    (db_service : SQliteConn D) :
  (∀ (pruned_logs : PrunedLogs) (w : World C D),
      ∃ w',
        __save_pruned_logs db_service pruned_logs w = (Ok tt, w')
        ∧ saved_batches (w_trace w')
          = saved_batches (w_trace w) ++ expected_saves pruned_logs
        ∧ w_db w'
          = foldl (λ d logs, db_save_logs db_service logs d) (w_db w)
                  (expected_saves pruned_logs))
  ∧ (∀ (log_list : Submission) (w : World C D),
        saved_batches (w_trace (serve db_service (add_logs cache log_list) w))
        = saved_batches (w_trace w)
          ++ expected_saves
               (prune_outcome
                  (cache_prune_cache cache
                     (cache_after_adds cache (submitted log_list) (w_cache w))).1))
  ∧ expected_saves None = []
  ∧ expected_saves (Some []) = []
  ∧ ∀ log logs, expected_saves (Some (log :: logs)) = [log :: logs].
Proof.
  split; [|split; [|done]].
  - intros pruned_logs w. eexists. split; [apply save_pruned_logs_run|].
    destruct pruned_logs as [[|log logs]|]; cbn [w_trace w_db expected_saves foldl];
      rewrite ?app_nil_r; try done.
    by rewrite saved_batches_app.
  - intros log_list w. rewrite serve_add_logs_trace.
    rewrite saved_batches_app. f_equal.
    rewrite !saved_batches_app, saved_batches_add_events. simpl.
    generalize (expected_saves
      (prune_outcome
         (cache_prune_cache cache
            (cache_after_adds cache (submitted log_list) (w_cache w))).1)).
    intros saves. induction saves as [|s saves IH]; [done|].
    simpl in *. by f_equal.
Qed.

Lemma add_events_kinds (log_list : Submission) (ev : Event) :
  ev ∈ add_events log_list →
  (∃ log_entry, ev = EvCacheAddLog log_entry) ∨ (∃ p, ev = EvPrint p).
Proof.
  destruct log_list as [log_entry|logs]; simpl.
  - intros ->%list_elem_of_singleton. eauto.
  - intros (log_entry & Hev & _)%list_elem_of_bind.
    apply elem_of_cons in Hev as [->|Hev]; [eauto|].
    apply list_elem_of_singleton in Hev as ->. eauto.
Qed.

Lemma submitted_attempted {C} (cache : TemporalCache C) (log_list : Submission) (c : C) :
  submitted (attempted_submission cache log_list c)
  = attempted cache (submitted log_list) c.
Proof.
  destruct log_list as [log_entry|logs]; [|done]. simpl.
  by destruct (tc_add_log cache log_entry c) as [[[]|e] c'].
Qed.

(** Claim C10, as stated, fails: a cache that holds one entry at most raises
    on the second entry of a batch of two, and [add_logs] returns no
    response with status 201. *)
Lemma add_logs_full_cache_no_201 :
  ¬ returns_201 (bounded_cache 1)
      (SubLogList [mkLogEntry 1 "INFO" "a"; mkLogEntry 2 "INFO" "b"])
      empty_world.
Proof.
  intros (body & w' & Hrun). rewrite add_logs_general in Hrun.
  simpl in Hrun. discriminate Hrun.
Qed.

(** Claim C10, amended.  For every submission of the declared type the
    assertion of [add_logs] holds, and [add_logs] checks nothing about the
    entries itself: what it returns is decided by the calls to [add_log]
    alone.  When every call returns, it returns the acknowledgment with
    status 201, having given every entry to the cache.  When a call raises,
    that exception leaves [add_logs]: there is no response, the entries
    after the refused one are not given to the cache, the cache is not
    pruned, no task is handed over, and the request ends with the exception
    reaching the framework. *)
Theorem add_logs_201_unless_add_log_raises {C D} (cache : TemporalCache C)
    (db_service : SQliteConn D) (log_list : Submission) (w : World C D) :
  assert_ (isinstance_LogEntry log_list || isinstance_LogList log_list)
          "Invalid input type" w = (Ok tt, w)
  ∧ match try_adds cache (submitted log_list) (w_cache w) with
    | (Ok _, c1) =>
        ∃ w',
          add_logs cache log_list w
            = (Ok (acknowledgment (length (submitted log_list))), w')
          ∧ added_entries (w_trace w')
            = added_entries (w_trace w) ++ submitted log_list
          ∧ w_cache w' = (tc_prune_cache cache c1).2
    | (Raise e, c1) =>
        ∃ events,
          add_logs cache log_list w
            = (Raise e, mkWorld c1 (w_db w) (w_tasks w) (w_trace w ++ events))
          ∧ added_entries events = attempted cache (submitted log_list) (w_cache w)
          ∧ (EvCachePrune ∉ events)
          ∧ w_trace (serve db_service (add_logs cache log_list) w)
            = w_trace w ++ events ++ [EvUnhandled e]
    end.
Proof.
  split; [by destruct log_list|].
  pose proof (add_logs_general cache log_list w) as Hrun.
  pose proof (add_logs_general cache log_list
                (mkWorld (w_cache w) (w_db w) [] (w_trace w))) as Hserve.
  cbn [w_cache w_db w_tasks w_trace] in Hserve.
  destruct (try_adds cache (submitted log_list) (w_cache w)) as [[[]|e] c1].
  - eexists. split; [exact Hrun|]. cbn [w_cache w_trace]. split; [|done].
    rewrite !added_entries_app, added_entries_add_events. simpl.
    by rewrite app_nil_r.
  - eexists. split; [exact Hrun|].
    split; [by rewrite added_entries_add_events, submitted_attempted|].
    split.
    + intros Hin. apply add_events_kinds in Hin as [[log_entry ?]|[p ?]]; done.
    + unfold serve. rewrite Hserve. unfold emit. cbn [w_trace].
      by rewrite <- app_assoc.
Qed.

(** ** The properties at work *)

Example merge_scenario_B :
  _merge_logs [mkLogEntry 1000 "INFO" "x"]
              [mkLogEntry 1000 "INFO" "x"; mkLogEntry 900 "WARN" "y"]
  = [mkLogEntry 900 "WARN" "y"; mkLogEntry 1000 "INFO" "x"].
Proof. vm_compute. reflexivity. Qed.

(** Equal timestamps keep the order cache-then-database. *)
Example merge_equal_timestamps :
  _merge_logs [mkLogEntry 5 "b" "2"; mkLogEntry 3 "a" "1"]
              [mkLogEntry 5 "a" "3"; mkLogEntry 5 "b" "2"; mkLogEntry 3 "c" "4"]
  = [mkLogEntry 3 "a" "1"; mkLogEntry 3 "c" "4";
     mkLogEntry 5 "b" "2"; mkLogEntry 5 "a" "3"].
Proof. vm_compute. reflexivity. Qed.

(** A request with one entry older than the cutoff: the trace shows the
    prune before the response and the save after it. *)
Example serve_single_entry :
  w_trace (serve list_db (add_logs (list_cache 10) (SubLogEntry (mkLogEntry 7 "INFO" "x")))
                 empty_world)
  = [EvCacheAddLog (mkLogEntry 7 "INFO" "x");
     EvCachePrune;
     EvPrint (PPrunedLogs [mkLogEntry 7 "INFO" "x"]);
     EvResponse (mkJSONResponse (ContentAdded "Successfully added 1 logs" 1) 201);
     EvDbSaveLogs [mkLogEntry 7 "INFO" "x"]].
Proof. vm_compute. reflexivity. Qed.

Example serve_batch_of_three :
  let logs := [mkLogEntry 30 "INFO" "a"; mkLogEntry 10 "WARN" "b"; mkLogEntry 20 "INFO" "c"] in
  let w := serve list_db (add_logs (list_cache 0) (SubLogList logs)) empty_world in
  added_entries (w_trace w) = logs
  ∧ w_cache w = logs
  ∧ saved_batches (w_trace w) = []
  ∧ EvResponse (mkJSONResponse (ContentAdded "Successfully added 3 logs" 3) 201) ∈ w_trace w.
Proof. vm_compute. repeat split. do 8 right. left. Qed.

(** A cache with room for one entry, given a batch of two: the first is
    added, the second is refused, and the request ends without a response. *)
Example serve_batch_on_full_cache :
  serve list_db
    (add_logs (bounded_cache 1)
       (SubLogList [mkLogEntry 1 "INFO" "a"; mkLogEntry 2 "INFO" "b"]))
    empty_world
  = mkWorld [mkLogEntry 1 "INFO" "a"] [] []
      [EvPrint (PLogEntry (mkLogEntry 1 "INFO" "a"));
       EvCacheAddLog (mkLogEntry 1 "INFO" "a");
       EvPrint (PLogEntry (mkLogEntry 2 "INFO" "b"));
       EvCacheAddLog (mkLogEntry 2 "INFO" "b");
       EvUnhandled (CollaboratorError "cache is full")].
Proof. vm_compute. reflexivity. Qed.

Example get_logs_reversed_range :
  get_logs (list_cache 0) list_db 5 3 empty_world
  = (Ok (mkJSONResponse (ContentLogs []) 200),
     mkWorld [] [] [] [EvCacheGetLogs 5 3; EvDbGetLogs 5 3]).
Proof. vm_compute. reflexivity. Qed.

(** Two objects with the same triple, told apart by a mark: the one from
    the cache list is the one kept. *)
Lemma merge_logs_dedup_witness :
  log_key (true, mkLogEntry 1000 "INFO" "x") = log_key (false, mkLogEntry 1000 "INFO" "x")
  ∧ _merge_logs [(true, mkLogEntry 1000 "INFO" "x")]
                [(false, mkLogEntry 1000 "INFO" "x")]
    = [(true, mkLogEntry 1000 "INFO" "x")].
Proof.
  split; [reflexivity|].
  apply (proj2 (proj2 (merge_logs_dedup (A := bool * LogEntry) [] []))).
  reflexivity.
Defined.

Lemma merge_logs_ordering_witness :
  (0 ≤ 1)%nat
  ∧ _merge_logs [mkLogEntry 1000 "INFO" "x"]
                [mkLogEntry 1000 "INFO" "x"; mkLogEntry 900 "WARN" "y"] !! 0%nat
    = Some (mkLogEntry 900 "WARN" "y")
  ∧ _merge_logs [mkLogEntry 1000 "INFO" "x"]
                [mkLogEntry 1000 "INFO" "x"; mkLogEntry 900 "WARN" "y"] !! 1%nat
    = Some (mkLogEntry 1000 "INFO" "x")
  ∧ timestamp (mkLogEntry 900 "WARN" "y") ≤ timestamp (mkLogEntry 1000 "INFO" "x").
Proof.
  assert (0 ≤ 1)%nat as H01 by lia.
  assert (_merge_logs [mkLogEntry 1000 "INFO" "x"]
            [mkLogEntry 1000 "INFO" "x"; mkLogEntry 900 "WARN" "y"] !! 0%nat
          = Some (mkLogEntry 900 "WARN" "y")) as H0 by (vm_compute; reflexivity).
  assert (_merge_logs [mkLogEntry 1000 "INFO" "x"]
            [mkLogEntry 1000 "INFO" "x"; mkLogEntry 900 "WARN" "y"] !! 1%nat
          = Some (mkLogEntry 1000 "INFO" "x")) as H1 by (vm_compute; reflexivity).
  split; [exact H01|]. split; [exact H0|]. split; [exact H1|].
  exact (proj1 (merge_logs_ordering _ _) 0%nat 1%nat _ _ H01 H0 H1).
Defined.

Lemma merge_logs_same_events_witness :
  mkLogEntry 900 "WARN" "y"
    ∈ _merge_logs [mkLogEntry 1000 "INFO" "x"]
                  [mkLogEntry 1000 "INFO" "x"; mkLogEntry 900 "WARN" "y"]
  ∧ (mkLogEntry 900 "WARN" "y" ∈ [mkLogEntry 1000 "INFO" "x"]
     ∨ mkLogEntry 900 "WARN" "y"
         ∈ [mkLogEntry 1000 "INFO" "x"; mkLogEntry 900 "WARN" "y"]).
Proof.
  assert (mkLogEntry 900 "WARN" "y"
            ∈ _merge_logs [mkLogEntry 1000 "INFO" "x"]
                [mkLogEntry 1000 "INFO" "x"; mkLogEntry 900 "WARN" "y"]) as Hin
    by (vm_compute; left).
  split; [exact Hin|].
  exact (proj2 (merge_logs_same_events _ _) _ Hin).
Defined.

(** A store with the two lists of scenario B at references 1 and 2. *)
Lemma merge_logs_pure_witness :
  let h : gmap loc (list LogEntry) :=
    {[ 1%positive := [mkLogEntry 1000 "INFO" "x"];
       2%positive := [mkLogEntry 1000 "INFO" "x"; mkLogEntry 900 "WARN" "y"] ]} in
  h !! 1%positive = Some [mkLogEntry 1000 "INFO" "x"]
  ∧ h !! 2%positive = Some [mkLogEntry 1000 "INFO" "x"; mkLogEntry 900 "WARN" "y"]
  ∧ ∃ r h',
      _merge_logs_store h 1%positive 2%positive = Some (r, h')
      ∧ h' !! r = Some [mkLogEntry 900 "WARN" "y"; mkLogEntry 1000 "INFO" "x"]
      ∧ h' !! 1%positive = Some [mkLogEntry 1000 "INFO" "x"]
      ∧ h' !! 2%positive = Some [mkLogEntry 1000 "INFO" "x"; mkLogEntry 900 "WARN" "y"].
Proof.
  intros h.
  assert (h !! 1%positive = Some [mkLogEntry 1000 "INFO" "x"]) as H1
    by (vm_compute; reflexivity).
  assert (h !! 2%positive
          = Some [mkLogEntry 1000 "INFO" "x"; mkLogEntry 900 "WARN" "y"]) as H2
    by (vm_compute; reflexivity).
  split; [exact H1|]. split; [exact H2|].
  destruct (proj1 (merge_logs_pure h 1%positive 2%positive _ _ H1 H2))
    as (r & h' & Hrun & _ & Hr & Hc & Hd & _).
  exists r, h'.
  split; [exact Hrun|]. split; [exact Hr|]. split; [exact Hc|exact Hd].
Defined.

(** A cache whose [prune_cache] raises, under a batch of two entries. *)
Lemma prune_failure_contained_witness :
  cache_prune_cache failing_cache
    (cache_after_adds failing_cache
       (submitted (SubLogList [mkLogEntry 1 "INFO" "a"; mkLogEntry 2 "INFO" "b"]))
       (w_cache empty_world))
  = (Raise (CollaboratorError "prune failed"),
     [mkLogEntry 1 "INFO" "a"; mkLogEntry 2 "INFO" "b"])
  ∧ ∃ w' events,
      add_logs failing_cache
        (SubLogList [mkLogEntry 1 "INFO" "a"; mkLogEntry 2 "INFO" "b"]) empty_world
      = (Ok (acknowledgment 2), w')
      ∧ w_cache w' = [mkLogEntry 1 "INFO" "a"; mkLogEntry 2 "INFO" "b"]
      ∧ w_trace (serve list_db
                   (add_logs failing_cache
                      (SubLogList [mkLogEntry 1 "INFO" "a"; mkLogEntry 2 "INFO" "b"]))
                   empty_world)
        = w_trace empty_world ++ events
      ∧ EvPrint (PPruneError (CollaboratorError "prune failed")) ∈ events
      ∧ EvResponse (acknowledgment 2) ∈ events
      ∧ ∀ e', EvUnhandled e' ∉ events.
Proof.
  split; [reflexivity|].
  apply (prune_failure_contained failing_cache list_db
           (SubLogList [mkLogEntry 1 "INFO" "a"; mkLogEntry 2 "INFO" "b"])
           empty_world).
  reflexivity.
Defined.

(** ** Further properties of [_merge_logs] *)
Section MergeMore.
Context `{LogLike A}.
Implicit Types (x y : A) (l p s : list A) (seen : gset LogKey).

(** A list without repeated keys, none of them seen, goes through a loop
    whole. *)
Lemma keep_new_all_new seen l :
  NoDup (log_key <$> l) →
  (∀ x, x ∈ l → log_key x ∉ seen) →
  keep_new seen l = l.
Proof.
  revert seen. induction l as [|x l IH]; intros seen Hnd Hnew; simpl; [done|].
  rewrite fmap_cons in Hnd. apply NoDup_cons in Hnd as [Hx Hnd].
  rewrite bool_decide_eq_true_2 by (apply Hnew; left).
  f_equal. apply IH; [done|].
  intros y Hy [Hin|Hin]%elem_of_union.
  - apply (Hnew y); [by right|done].
  - apply elem_of_singleton in Hin. apply Hx. rewrite <- Hin.
    apply list_elem_of_fmap. eauto.
Qed.

(** A list whose keys were all seen adds nothing. *)
Lemma keep_new_all_seen seen l :
  keys_of l ⊆ seen → keep_new seen l = [].
Proof.
  revert seen. induction l as [|x l IH]; intros seen Hsub; simpl; [done|].
  rewrite keys_of_cons in Hsub.
  rewrite bool_decide_eq_false_2.
  - apply IH. intros k Hk. apply Hsub, elem_of_union. by right.
  - intros Hnot. apply Hnot, Hsub, elem_of_union. left. by apply elem_of_singleton.
Qed.

Lemma insert_by_timestamp_least x l :
  Forall (le_timestamp_rel x) l → insert_by_timestamp x l = x :: l.
Proof.
  destruct l as [|y l]; simpl; [done|].
  intros [Hxy _]%Forall_cons. unfold le_timestamp_rel in Hxy.
  rewrite bool_decide_eq_false_2; [done|lia].
Qed.

(** Sorting a sorted list leaves it as it is. *)
Lemma sort_by_timestamp_sorted_id l :
  StronglySorted le_timestamp_rel l → sort_by_timestamp l = l.
Proof.
  induction 1 as [|x l Hs IH Hx]; simpl; [done|].
  rewrite IH. by apply insert_by_timestamp_least.
Qed.

Lemma merge_logs_keys p s :
  keys_of (_merge_logs p s) = keys_of (p ++ s).
Proof.
  rewrite merge_logs_unfold. unfold keys_of at 1.
  rewrite sort_by_timestamp_perm.
  fold (keys_of (keep_new ∅ (p ++ s))).
  pose proof (keep_new_keys ∅ (p ++ s)) as Hk.
  by rewrite !(left_id_L ∅ (∪)) in Hk.
Qed.

Lemma merge_logs_NoDup_keys p s : NoDup (log_key <$> _merge_logs p s).
Proof. rewrite merge_logs_unfold, sort_by_timestamp_perm. apply keep_new_NoDup. Qed.

Lemma merge_logs_sorted p s : StronglySorted le_timestamp_rel (_merge_logs p s).
Proof. rewrite merge_logs_unfold. apply sort_by_timestamp_sorted. Qed.

Lemma merge_logs_absorb p s :
  keys_of s ⊆ keys_of p → _merge_logs p s = _merge_logs p [].
Proof.
  intros Hsub. rewrite !merge_logs_unfold, app_nil_r, (keep_new_app _ p s).
  rewrite (keep_new_all_seen _ s); [by rewrite app_nil_r|].
  intros k Hk. apply elem_of_union. right. by apply Hsub.
Qed.

Lemma merge_logs_clean p :
  StronglySorted le_timestamp_rel p →
  NoDup (log_key <$> p) →
  _merge_logs p [] = p.
Proof.
  intros Hs Hnd. rewrite merge_logs_unfold, app_nil_r.
  rewrite keep_new_all_new; [by apply sort_by_timestamp_sorted_id|done|].
  intros x _ Hin. by apply not_elem_of_empty in Hin.
Qed.

Lemma merge_logs_nil_l s : _merge_logs [] s = _merge_logs s [].
Proof. by rewrite !merge_logs_unfold, app_nil_r. Qed.
End MergeMore.

(** Property X1.  The output of [_merge_logs] has exactly one entry for each
    distinct triple of the two lists; it is never longer than the two lists
    together. *)
Theorem merge_logs_length `{LogLike A} (cache_logs db_logs : list A) :
  length (_merge_logs cache_logs db_logs)
    = size (keys_of cache_logs ∪ keys_of db_logs)
  ∧ (length (_merge_logs cache_logs db_logs)
       ≤ length cache_logs + length db_logs)%nat.
Proof.
  rewrite merge_logs_unfold, sort_by_timestamp_perm. split.
  - rewrite <- keys_of_app.
    pose proof (keep_new_keys ∅ (cache_logs ++ db_logs)) as Hk.
    rewrite !(left_id_L ∅ (∪)) in Hk. rewrite <- Hk.
    unfold keys_of. rewrite size_list_to_set by apply keep_new_NoDup.
    by rewrite length_fmap.
  - rewrite <- length_app. apply sublist_length, keep_new_sublist.
Qed.

(** Property X2.  Database entries whose triples all occur in the cache list
    change nothing: the result is that of merging the cache list alone. *)
Theorem merge_logs_db_absorbed `{LogLike A} (cache_logs db_logs : list A) :
  keys_of db_logs ⊆ keys_of cache_logs →
  _merge_logs cache_logs db_logs = _merge_logs cache_logs [].
Proof.
  intros Hsub.
  rewrite !merge_logs_unfold, app_nil_r, (keep_new_app _ cache_logs db_logs).
  rewrite (keep_new_all_seen _ db_logs); [by rewrite app_nil_r|].
  intros k Hk. apply elem_of_union. right. by apply Hsub.
Qed.

(** Property X3.  A list that is already ordered by timestamp and has no
    repeated triple comes back unchanged, whether it is given as the cache
    list or as the database list. *)
Theorem merge_logs_clean_input `{LogLike A} (logs : list A) :
  StronglySorted le_timestamp_rel logs →
  NoDup (log_key <$> logs) →
  _merge_logs logs [] = logs ∧ _merge_logs [] logs = logs.
Proof.
  intros Hs Hnd. rewrite merge_logs_nil_l. split; by apply merge_logs_clean.
Qed.

(** Property X4.  Merging is idempotent: merging the output again, with
    nothing or with either of the lists it came from, gives the output
    back. *)
Theorem merge_logs_idempotent `{LogLike A} (cache_logs db_logs : list A) :
  _merge_logs (_merge_logs cache_logs db_logs) []
    = _merge_logs cache_logs db_logs
  ∧ _merge_logs (_merge_logs cache_logs db_logs) cache_logs
    = _merge_logs cache_logs db_logs
  ∧ _merge_logs (_merge_logs cache_logs db_logs) db_logs
    = _merge_logs cache_logs db_logs.
Proof.
  assert (_merge_logs (_merge_logs cache_logs db_logs) []
          = _merge_logs cache_logs db_logs) as Hid.
  { apply merge_logs_clean; [apply merge_logs_sorted|apply merge_logs_NoDup_keys]. }
  split; [done|].
  split; (rewrite merge_logs_absorb; [done|]);
    rewrite merge_logs_keys, keys_of_app; intros k Hk; apply elem_of_union; auto.
Qed.

Lemma log_key_LogEntry_inj (x y : LogEntry) : log_key x = log_key y → x = y.
Proof. destruct x, y. unfold log_key. simpl. congruence. Qed.

Lemma merge_logs_elem_of_LogEntry (cache_logs db_logs : list LogEntry) (x : LogEntry) :
  x ∈ _merge_logs cache_logs db_logs ↔ x ∈ cache_logs ∨ x ∈ db_logs.
Proof.
  rewrite <- elem_of_app. split.
  - rewrite merge_logs_unfold, sort_by_timestamp_perm. intros Hx.
    eapply elem_of_sublist; [done|apply keep_new_sublist].
  - intros Hx.
    assert (log_key x ∈ keys_of (_merge_logs cache_logs db_logs)) as Hk.
    { rewrite merge_logs_keys. apply elem_of_keys_of. eauto. }
    apply elem_of_keys_of in Hk as (y & Hy & Hxy).
    by apply log_key_LogEntry_inj in Hxy as ->.
Qed.

(** Property X5.  On [LogEntry] values, whose three fields are all there is
    to them, the output holds each entry of either list exactly once, so
    exchanging the cache list and the database list gives the same entries,
    up to the order among equal timestamps. *)
Theorem merge_logs_entries_comm (cache_logs db_logs : list LogEntry) :
  (∀ x, x ∈ _merge_logs cache_logs db_logs ↔ x ∈ cache_logs ∨ x ∈ db_logs)
  ∧ NoDup (_merge_logs cache_logs db_logs)
  ∧ _merge_logs cache_logs db_logs ≡ₚ _merge_logs db_logs cache_logs.
Proof.
  split; [apply merge_logs_elem_of_LogEntry|].
  assert (∀ p s : list LogEntry, NoDup (_merge_logs p s)) as Hnd.
  { intros p s. eapply NoDup_fmap_1, merge_logs_NoDup_keys. }
  split; [apply Hnd|].
  apply NoDup_Permutation; [apply Hnd..|].
  intros x. rewrite !merge_logs_elem_of_LogEntry. tauto.
Qed.

(** Property X6.  Two entries of the output never agree on the whole
    triple: of two positions, the later entry has a later timestamp, or the
    same timestamp and a different tag or message. *)
Theorem merge_logs_strictly_apart `{LogLike A} (cache_logs db_logs : list A)
    (i j : nat) (x y : A) :
  (i < j)%nat →
  _merge_logs cache_logs db_logs !! i = Some x →
  _merge_logs cache_logs db_logs !! j = Some y →
  timestamp x < timestamp y
  ∨ (timestamp x = timestamp y ∧ (tag x ≠ tag y ∨ message x ≠ message y)).
Proof.
  intros Hij Hi Hj.
  assert (timestamp x ≤ timestamp y) as Hle.
  { eapply (StronglySorted_lookup_le _ i j); [apply merge_logs_sorted|lia|done..]. }
  destruct (decide (timestamp x = timestamp y)) as [Hts|Hts]; [|left; lia].
  right. split; [done|].
  destruct (decide (tag x = tag y)) as [Htag|]; [|by left].
  destruct (decide (message x = message y)) as [Hmsg|]; [|by right].
  exfalso.
  assert (i = j); [|lia].
  eapply (NoDup_lookup (log_key <$> _merge_logs cache_logs db_logs) i j (log_key x)).
  - apply merge_logs_NoDup_keys.
  - by rewrite list_lookup_fmap, Hi.
  - rewrite list_lookup_fmap, Hj. simpl. unfold log_key. by rewrite Hts, Htag, Hmsg.
Qed.

(** Property X7.  The output is empty only when both lists are empty, and
    its first entry is no later than any entry of either list. *)
Theorem merge_logs_first_is_oldest `{LogLike A} (cache_logs db_logs : list A) :
  (_merge_logs cache_logs db_logs = [] ↔ cache_logs = [] ∧ db_logs = [])
  ∧ ∀ first x,
      head (_merge_logs cache_logs db_logs) = Some first →
      x ∈ cache_logs ++ db_logs →
      timestamp first ≤ timestamp x.
Proof.
  split.
  - split; [|by intros [-> ->]].
    intros Hnil.
    assert (keys_of (cache_logs ++ db_logs) = ∅) as Hk
      by (by rewrite <- merge_logs_keys, Hnil).
    destruct cache_logs as [|x p]; [destruct db_logs as [|x s]; [done|]|];
      exfalso; simpl in Hk; rewrite keys_of_cons in Hk;
      apply (not_elem_of_empty (C := gset LogKey) (log_key x));
      rewrite <- Hk; apply elem_of_union; left; by apply elem_of_singleton.
  - intros first x Hhead Hx.
    assert (log_key x ∈ keys_of (_merge_logs cache_logs db_logs)) as Hk.
    { rewrite merge_logs_keys. apply elem_of_keys_of. eauto. }
    apply elem_of_keys_of in Hk as (y & Hy & Hxy).
    assert (timestamp y = timestamp x) as <- by (unfold log_key in Hxy; congruence).
    apply list_elem_of_lookup in Hy as [j Hj].
    eapply (StronglySorted_lookup_le _ 0%nat j);
      [apply merge_logs_sorted|lia| |done].
    by rewrite <- head_lookup.
Qed.

(** Property X8.  The output is determined by two facts: it is ordered by
    timestamp, and at every timestamp it lists the first occurrences of the
    triples in [cache_logs ++ db_logs], in their order.  Any list with these
    two properties is the output. *)
Theorem merge_logs_characterised `{LogLike A} (cache_logs db_logs out : list A) :
  StronglySorted le_timestamp_rel out →
  (∀ t, at_timestamp t out = at_timestamp t (keep_new ∅ (cache_logs ++ db_logs))) →
  out = _merge_logs cache_logs db_logs.
Proof.
  intros Hs Hat. apply stable_sort_unique; [done|apply merge_logs_sorted|].
  intros t. by rewrite Hat, merge_logs_unfold, sort_by_timestamp_stable.
Qed.

(** ** Further properties of the handlers *)

Lemma jsonable_log_inj (x y : LogEntry) : jsonable_log x = jsonable_log y → x = y.
Proof. destruct x, y. unfold jsonable_log. simpl. congruence. Qed.

Lemma serve_get_logs_run {C D} (cache : TemporalCache C) (db_service : SQliteConn D)
    (start_time end_time : Z) (w : World C D) :
  serve db_service (get_logs cache db_service start_time end_time) w
  = mkWorld (w_cache w) (w_db w) []
      (w_trace w
       ++ [EvCacheGetLogs start_time end_time;
           EvDbGetLogs start_time end_time;
           EvResponse
             (mkJSONResponse
                (ContentLogs
                   (jsonable_log <$>
                      _merge_logs
                        (tc_get_logs cache start_time end_time (w_cache w))
                        (db_get_logs db_service start_time end_time (w_db w))))
                200)]).
Proof.
  unfold serve. rewrite get_logs_run.
  cbn [w_cache w_db w_tasks w_trace emit for_each]. unfold emit, ret.
  cbn [w_cache w_db w_tasks w_trace]. by rewrite <- app_assoc.
Qed.

Lemma serve_add_logs_run {C D} (cache : AcceptingCache C) (db_service : SQliteConn D)
    (log_list : Submission) (w : World C D) :
  let c1 := cache_after_adds cache (submitted log_list) (w_cache w) in
  let r := (cache_prune_cache cache c1).1 in
  serve db_service (add_logs cache log_list) w
  = mkWorld (cache_prune_cache cache c1).2
      (foldl (λ d logs, db_save_logs db_service logs d) (w_db w)
             (expected_saves (prune_outcome r)))
      [TaskSavePrunedLogs (prune_outcome r)]
      (w_trace w
       ++ (add_events log_list ++ [EvCachePrune; EvPrint (prune_report r)])
       ++ EvResponse (acknowledgment (length (submitted log_list)))
       :: (EvDbSaveLogs <$> expected_saves (prune_outcome r))).
Proof.
  intros c1 r. unfold serve. rewrite add_logs_run.
  cbn [w_cache w_db w_tasks w_trace emit app for_each run_task].
  unfold emit. cbn [w_cache w_db w_tasks w_trace app for_each run_task].
  unfold bind at 1. rewrite save_pruned_logs_run. unfold ret.
  fold c1. fold r.
  destruct (prune_outcome r) as [[|log logs]|];
    cbn [w_cache w_db w_tasks w_trace expected_saves fmap list_fmap foldl];
    rewrite <- ?app_assoc; simpl; by rewrite <- ?app_assoc.
Qed.

(** Property X9.  The logs in the response of [get_logs] are the entries
    returned by the cache or by the database for the range, each once, in
    non-decreasing order of timestamp; the request changes neither the cache
    nor the database, and during it nothing is added, pruned or saved. *)
Theorem get_logs_response {C D} (cache : TemporalCache C) (db_service : SQliteConn D)
    (start_time end_time : Z) (w : World C D) :
  ∃ logs w',
    get_logs cache db_service start_time end_time w
      = (Ok (mkJSONResponse (ContentLogs (jsonable_log <$> logs)) 200), w')
    ∧ (∀ x, x ∈ logs ↔ x ∈ tc_get_logs cache start_time end_time (w_cache w)
                       ∨ x ∈ db_get_logs db_service start_time end_time (w_db w))
    ∧ NoDup (jsonable_log <$> logs)
    ∧ StronglySorted le_timestamp_rel logs
    ∧ w_cache w' = w_cache w ∧ w_db w' = w_db w ∧ w_tasks w' = w_tasks w
    ∧ serve db_service (get_logs cache db_service start_time end_time) w
      = mkWorld (w_cache w) (w_db w) []
          (w_trace w
           ++ [EvCacheGetLogs start_time end_time;
               EvDbGetLogs start_time end_time;
               EvResponse (mkJSONResponse (ContentLogs (jsonable_log <$> logs)) 200)]).
Proof.
  eexists _, _. split; [apply get_logs_run|].
  split; [apply merge_logs_elem_of_LogEntry|].
  split.
  { apply NoDup_fmap_2_strong.
    - intros x y _ _. apply jsonable_log_inj.
    - eapply NoDup_fmap_1, merge_logs_NoDup_keys. }
  split; [apply merge_logs_sorted|].
  repeat (split; [done|]). apply serve_get_logs_run.
Qed.

(** [get_all_logs] answers with the entries the cache holds,
    as many and in the order the cache gives them, repeated entries
    included; it asks only the cache and changes nothing. *)
Theorem get_all_logs_response {C D} (cache : TemporalCache C) (w : World C D) :
  ∃ logs w',
    get_all_logs cache w = (Ok (mkJSONResponse (ContentLogs logs) 200), w')
    ∧ logs = jsonable_log <$> tc_get_all_logs cache (w_cache w)
    ∧ length logs = length (tc_get_all_logs cache (w_cache w))
    ∧ (∀ i x, tc_get_all_logs cache (w_cache w) !! i = Some x →
              logs !! i = Some (jsonable_log x))
    ∧ w_trace w' = w_trace w ++ [EvCacheGetAllLogs]
    ∧ w_cache w' = w_cache w ∧ w_db w' = w_db w ∧ w_tasks w' = w_tasks w.
Proof.
  eexists _, _. split; [reflexivity|]. split; [done|].
  split; [by rewrite length_fmap|].
  split; [|done].
  intros i x Hx. rewrite list_lookup_fmap.
  by rewrite Hx.
Qed.

(** Property X10.  An empty batch is accepted like any other: nothing is
    added, the cache is still pruned, the task is still handed over, and the
    acknowledgment reports a count of 0. *)
Theorem add_logs_empty_batch {C D} (cache : TemporalCache C) (w : World C D) :
  add_logs cache (SubLogList []) w
  = (Ok (mkJSONResponse (ContentAdded "Successfully added 0 logs" 0) 201),
     mkWorld (tc_prune_cache cache (w_cache w)).2 (w_db w)
       (w_tasks w
        ++ [TaskSavePrunedLogs (prune_outcome (tc_prune_cache cache (w_cache w)).1)])
       (w_trace w
        ++ [EvCachePrune;
            EvPrint (prune_report (tc_prune_cache cache (w_cache w)).1)])).
Proof. rewrite add_logs_general. reflexivity. Qed.

(** Property X11.  Every call of [add_logs] hands exactly one task to
    [BackgroundTasks], whether the prune returned entries, returned none or
    raised; the tasks already there stay, and [add_logs] itself leaves the
    database alone. *)
Theorem add_logs_one_task {C D} (cache : AcceptingCache C)
    (log_list : Submission) (w : World C D) :
  ∃ pruned_logs,
    w_tasks (add_logs cache log_list w).2
      = w_tasks w ++ [TaskSavePrunedLogs pruned_logs]
    ∧ pruned_logs
      = prune_outcome
          (cache_prune_cache cache
             (cache_after_adds cache (submitted log_list) (w_cache w))).1
    ∧ w_db (add_logs cache log_list w).2 = w_db w
    ∧ saved_batches (w_trace (add_logs cache log_list w).2)
      = saved_batches (w_trace w).
Proof.
  eexists. rewrite add_logs_run. cbn [snd w_tasks w_db w_trace].
  split; [done|]. split; [done|]. split; [done|].
  rewrite !saved_batches_app, saved_batches_add_events. simpl.
  by rewrite app_nil_r.
Qed.

(** Property X12.  A single entry and a list holding that one entry are
    handled alike: same response, same cache, same database, same task,
    and the same exception when [add_log] raises.  The only difference is
    that the list form prints the entry before adding it. *)
Theorem add_logs_single_as_batch {C D} (cache : TemporalCache C)
    (log_entry : LogEntry) (w : World C D) :
  ∃ events,
    (add_logs cache (SubLogEntry log_entry) w).1
      = (add_logs cache (SubLogList [log_entry]) w).1
    ∧ w_cache (add_logs cache (SubLogEntry log_entry) w).2
      = w_cache (add_logs cache (SubLogList [log_entry]) w).2
    ∧ w_db (add_logs cache (SubLogEntry log_entry) w).2
      = w_db (add_logs cache (SubLogList [log_entry]) w).2
    ∧ w_tasks (add_logs cache (SubLogEntry log_entry) w).2
      = w_tasks (add_logs cache (SubLogList [log_entry]) w).2
    ∧ w_trace (add_logs cache (SubLogEntry log_entry) w).2 = w_trace w ++ events
    ∧ w_trace (add_logs cache (SubLogList [log_entry]) w).2
      = w_trace w ++ EvPrint (PLogEntry log_entry) :: events.
Proof.
  rewrite !add_logs_general. cbn [submitted try_adds attempted_submission attempted].
  destruct (tc_add_log cache log_entry (w_cache w)) as [[[]|e] c'];
    eexists; cbn [fst snd w_cache w_db w_tasks w_trace add_events];
    repeat (split; [reflexivity|]); reflexivity.
Qed.

(** Property X13.  [__prune_logs] never raises.  It calls [prune_cache]
    once, prints one line, and returns the pruned entries, or [None] exactly
    when [prune_cache] raised; a prune that found nothing returns the empty
    list, not [None].  It touches neither the database nor the tasks. *)
Theorem prune_logs_never_raises {C D} (cache : TemporalCache C) (w : World C D) :
  ∃ pruned_logs printed w',
    __prune_logs cache w = (Ok pruned_logs, w')
    ∧ w_trace w' = w_trace w ++ [EvCachePrune; EvPrint printed]
    ∧ w_cache w' = (tc_prune_cache cache (w_cache w)).2
    ∧ w_db w' = w_db w ∧ w_tasks w' = w_tasks w
    ∧ (pruned_logs = None ↔ ∃ e, (tc_prune_cache cache (w_cache w)).1 = Raise e)
    ∧ (∀ logs, pruned_logs = Some logs
               ↔ (tc_prune_cache cache (w_cache w)).1 = Ok logs).
Proof.
  eexists _, _, _. split; [apply prune_logs_general|].
  cbn [w_cache w_db w_tasks w_trace].
  repeat (split; [done|]).
  destruct (tc_prune_cache cache (w_cache w)).1 as [logs|e]; simpl.
  - split; [split; [done|by intros [e ?]]|]. intros logs'. split; congruence.
  - split; [split; eauto|]. intros logs'. split; congruence.
Qed.

(** Property X14.  After a request to [POST /logs] the cache is what
    [prune_cache] left of the cache with the submitted entries added, and
    the database has been given the pruned entries and nothing else: it is
    unchanged when the prune returned no entry or raised. *)
Theorem post_logs_final_state {C D} (cache : AcceptingCache C)
    (db_service : SQliteConn D) (log_list : Submission) (w : World C D) :
  let pruned :=
    cache_prune_cache cache
      (cache_after_adds cache (submitted log_list) (w_cache w)) in
  w_cache (serve db_service (add_logs cache log_list) w) = pruned.2
  ∧ w_db (serve db_service (add_logs cache log_list) w)
    = match pruned.1 with
      | Ok (log :: logs) => db_save_logs db_service (log :: logs) (w_db w)
      | Ok [] => w_db w
      | Raise _ => w_db w
      end.
Proof.
  intros pruned. rewrite serve_add_logs_run. cbn [w_cache w_db].
  split; [done|]. fold pruned.
  by destruct pruned.1 as [[|log logs]|e].
Qed.

(** Property X15.  Each call of [_merge_logs] returns a list of its own:
    two calls on the same two lists give two different new lists with the
    same content, the first result is not touched by the second call, and
    the two input lists are as they were. *)
Theorem merge_logs_store_twice `{LogLike A} (h : gmap loc (list A))
    (cache_logs db_logs : loc) (lc ld : list A) :
  h !! cache_logs = Some lc →
  h !! db_logs = Some ld →
  ∃ r1 h1 r2 h2,
    _merge_logs_store h cache_logs db_logs = Some (r1, h1)
    ∧ _merge_logs_store h1 cache_logs db_logs = Some (r2, h2)
    ∧ r1 ≠ r2
    ∧ h2 !! r1 = Some (_merge_logs lc ld)
    ∧ h2 !! r2 = Some (_merge_logs lc ld)
    ∧ h2 !! cache_logs = Some lc
    ∧ h2 !! db_logs = Some ld.
Proof.
  intros Hc Hd.
  assert (h !! fresh (dom h) = None) as Hr1 by apply not_elem_of_dom, is_fresh.
  set (r1 := fresh (dom h)) in *.
  set (h1 := <[r1 := _merge_logs lc ld]> h).
  assert (h1 !! cache_logs = Some lc) as Hc1
    by (unfold h1; rewrite lookup_insert_ne by congruence; done).
  assert (h1 !! db_logs = Some ld) as Hd1
    by (unfold h1; rewrite lookup_insert_ne by congruence; done).
  assert (h1 !! fresh (dom h1) = None) as Hr2 by apply not_elem_of_dom, is_fresh.
  set (r2 := fresh (dom h1)) in *.
  assert (r1 ≠ r2) as Hne.
  { intros Heq. rewrite <- Heq in Hr2. unfold h1 in Hr2.
    by rewrite lookup_insert_eq in Hr2. }
  exists r1, h1, r2, (<[r2 := _merge_logs lc ld]> h1).
  split; [by apply merge_logs_store_run|].
  split; [by apply merge_logs_store_run|].
  split; [done|].
  split; [rewrite lookup_insert_ne by done; unfold h1; by rewrite lookup_insert_eq|].
  split; [by rewrite lookup_insert_eq|].
  split; rewrite lookup_insert_ne by congruence; done.
Qed.

(** ** The further properties at work *)

(** The database returns what the cache already holds. *)
Lemma merge_logs_db_absorbed_witness :
  keys_of [mkLogEntry 1000 "INFO" "x"]
    ⊆ keys_of [mkLogEntry 900 "WARN" "y"; mkLogEntry 1000 "INFO" "x"]
  ∧ _merge_logs [mkLogEntry 900 "WARN" "y"; mkLogEntry 1000 "INFO" "x"]
                [mkLogEntry 1000 "INFO" "x"]
    = _merge_logs [mkLogEntry 900 "WARN" "y"; mkLogEntry 1000 "INFO" "x"] [].
Proof.
  assert (keys_of [mkLogEntry 1000 "INFO" "x"]
            ⊆ keys_of [mkLogEntry 900 "WARN" "y"; mkLogEntry 1000 "INFO" "x"]) as Hsub.
  { by_decision. }
  split; [exact Hsub|].
  exact (merge_logs_db_absorbed _ _ Hsub).
Defined.

Lemma merge_logs_clean_input_witness :
  StronglySorted le_timestamp_rel
    [mkLogEntry 900 "WARN" "y"; mkLogEntry 1000 "INFO" "x"]
  ∧ NoDup (log_key <$> [mkLogEntry 900 "WARN" "y"; mkLogEntry 1000 "INFO" "x"])
  ∧ _merge_logs [mkLogEntry 900 "WARN" "y"; mkLogEntry 1000 "INFO" "x"] []
    = [mkLogEntry 900 "WARN" "y"; mkLogEntry 1000 "INFO" "x"]
  ∧ _merge_logs [] [mkLogEntry 900 "WARN" "y"; mkLogEntry 1000 "INFO" "x"]
    = [mkLogEntry 900 "WARN" "y"; mkLogEntry 1000 "INFO" "x"].
Proof.
  assert (StronglySorted le_timestamp_rel
            [mkLogEntry 900 "WARN" "y"; mkLogEntry 1000 "INFO" "x"]) as Hs.
  { repeat constructor. unfold le_timestamp_rel. simpl. lia. }
  assert (NoDup (log_key <$> [mkLogEntry 900 "WARN" "y"; mkLogEntry 1000 "INFO" "x"]))
    as Hnd.
  { by_decision. }
  split; [exact Hs|]. split; [exact Hnd|].
  exact (merge_logs_clean_input _ Hs Hnd).
Defined.

(** Two entries of one timestamp that differ in the tag. *)
Lemma merge_logs_strictly_apart_witness :
  (0 < 1)%nat
  ∧ _merge_logs [mkLogEntry 5 "b" "2"] [mkLogEntry 5 "a" "2"] !! 0%nat
    = Some (mkLogEntry 5 "b" "2")
  ∧ _merge_logs [mkLogEntry 5 "b" "2"] [mkLogEntry 5 "a" "2"] !! 1%nat
    = Some (mkLogEntry 5 "a" "2")
  ∧ (timestamp (mkLogEntry 5 "b" "2") < timestamp (mkLogEntry 5 "a" "2")
     ∨ (timestamp (mkLogEntry 5 "b" "2") = timestamp (mkLogEntry 5 "a" "2")
        ∧ (tag (mkLogEntry 5 "b" "2") ≠ tag (mkLogEntry 5 "a" "2")
           ∨ message (mkLogEntry 5 "b" "2") ≠ message (mkLogEntry 5 "a" "2")))).
Proof.
  assert (0 < 1)%nat as H01 by lia.
  assert (_merge_logs [mkLogEntry 5 "b" "2"] [mkLogEntry 5 "a" "2"] !! 0%nat
          = Some (mkLogEntry 5 "b" "2")) as H0 by (vm_compute; reflexivity).
  assert (_merge_logs [mkLogEntry 5 "b" "2"] [mkLogEntry 5 "a" "2"] !! 1%nat
          = Some (mkLogEntry 5 "a" "2")) as H1 by (vm_compute; reflexivity).
  split; [exact H01|]. split; [exact H0|]. split; [exact H1|].
  exact (merge_logs_strictly_apart _ _ 0%nat 1%nat _ _ H01 H0 H1).
Defined.

Lemma merge_logs_first_is_oldest_witness :
  head (_merge_logs [mkLogEntry 1000 "INFO" "x"]
                    [mkLogEntry 1000 "INFO" "x"; mkLogEntry 900 "WARN" "y"])
    = Some (mkLogEntry 900 "WARN" "y")
  ∧ mkLogEntry 1000 "INFO" "x"
      ∈ [mkLogEntry 1000 "INFO" "x"]
        ++ [mkLogEntry 1000 "INFO" "x"; mkLogEntry 900 "WARN" "y"]
  ∧ timestamp (mkLogEntry 900 "WARN" "y") ≤ timestamp (mkLogEntry 1000 "INFO" "x").
Proof.
  assert (head (_merge_logs [mkLogEntry 1000 "INFO" "x"]
                  [mkLogEntry 1000 "INFO" "x"; mkLogEntry 900 "WARN" "y"])
          = Some (mkLogEntry 900 "WARN" "y")) as Hhead by (vm_compute; reflexivity).
  assert (mkLogEntry 1000 "INFO" "x"
            ∈ [mkLogEntry 1000 "INFO" "x"]
              ++ [mkLogEntry 1000 "INFO" "x"; mkLogEntry 900 "WARN" "y"]) as Hin
    by (simpl; left).
  split; [exact Hhead|]. split; [exact Hin|].
  exact (proj2 (merge_logs_first_is_oldest _ _) _ _ Hhead Hin).
Defined.

Lemma merge_logs_characterised_witness :
  StronglySorted le_timestamp_rel
    [mkLogEntry 900 "WARN" "y"; mkLogEntry 1000 "INFO" "x"]
  ∧ (∀ t, at_timestamp t [mkLogEntry 900 "WARN" "y"; mkLogEntry 1000 "INFO" "x"]
          = at_timestamp t
              (keep_new ∅ ([mkLogEntry 900 "WARN" "y"]
                           ++ [mkLogEntry 900 "WARN" "y"; mkLogEntry 1000 "INFO" "x"])))
  ∧ [mkLogEntry 900 "WARN" "y"; mkLogEntry 1000 "INFO" "x"]
    = _merge_logs [mkLogEntry 900 "WARN" "y"]
                  [mkLogEntry 900 "WARN" "y"; mkLogEntry 1000 "INFO" "x"].
Proof.
  assert (StronglySorted le_timestamp_rel
            [mkLogEntry 900 "WARN" "y"; mkLogEntry 1000 "INFO" "x"]) as Hs.
  { repeat constructor. unfold le_timestamp_rel. simpl. lia. }
  assert (keep_new ∅ ([mkLogEntry 900 "WARN" "y"]
                      ++ [mkLogEntry 900 "WARN" "y"; mkLogEntry 1000 "INFO" "x"])
          = [mkLogEntry 900 "WARN" "y"; mkLogEntry 1000 "INFO" "x"]) as Hkept
    by (vm_compute; reflexivity).
  assert (∀ t, at_timestamp t [mkLogEntry 900 "WARN" "y"; mkLogEntry 1000 "INFO" "x"]
               = at_timestamp t
                   (keep_new ∅ ([mkLogEntry 900 "WARN" "y"]
                                ++ [mkLogEntry 900 "WARN" "y"; mkLogEntry 1000 "INFO" "x"])))
    as Hat.
  { intros t. rewrite Hkept. reflexivity. }
  split; [exact Hs|]. split; [exact Hat|].
  exact (merge_logs_characterised _ _ _ Hs Hat).
Defined.

Lemma merge_logs_store_twice_witness :
  let h : gmap loc (list LogEntry) :=
    {[ 1%positive := [mkLogEntry 1000 "INFO" "x"];
       2%positive := [mkLogEntry 1000 "INFO" "x"; mkLogEntry 900 "WARN" "y"] ]} in
  h !! 1%positive = Some [mkLogEntry 1000 "INFO" "x"]
  ∧ h !! 2%positive = Some [mkLogEntry 1000 "INFO" "x"; mkLogEntry 900 "WARN" "y"]
  ∧ ∃ r1 h1 r2 h2,
      _merge_logs_store h 1%positive 2%positive = Some (r1, h1)
      ∧ _merge_logs_store h1 1%positive 2%positive = Some (r2, h2)
      ∧ r1 ≠ r2
      ∧ h2 !! r1 = Some [mkLogEntry 900 "WARN" "y"; mkLogEntry 1000 "INFO" "x"]
      ∧ h2 !! r2 = Some [mkLogEntry 900 "WARN" "y"; mkLogEntry 1000 "INFO" "x"].
Proof.
  intros h.
  assert (h !! 1%positive = Some [mkLogEntry 1000 "INFO" "x"]) as H1
    by (vm_compute; reflexivity).
  assert (h !! 2%positive
          = Some [mkLogEntry 1000 "INFO" "x"; mkLogEntry 900 "WARN" "y"]) as H2
    by (vm_compute; reflexivity).
  split; [exact H1|]. split; [exact H2|].
  destruct (merge_logs_store_twice h 1%positive 2%positive _ _ H1 H2)
    as (r1 & h1 & r2 & h2 & Hrun1 & Hrun2 & Hne & Hr1 & Hr2 & _).
  exists r1, h1, r2, h2.
  split; [exact Hrun1|]. split; [exact Hrun2|]. split; [exact Hne|].
  split; [exact Hr1|exact Hr2].
Defined.
